(** * protojson encoder: a shallow embedding of encoding/protojson/encode.go

    The encoder walks a reflective message value and drives a JSON token
    writer.  The reflection model (descriptors, values, messages), the token
    writer and the sorting routine are collaborators of the encoder; they are
    represented here by the observations the encoder makes of them. *)

From Stdlib Require Import ZArith List String Ascii Bool Lia.
From Stdlib Require Import Permutation Sorted DecimalString.
Import ListNotations.

#[local] Set Warnings "-register-all".

Open Scope Z_scope.

(** ** Reflection model (protoreflect) *)

(** protoreflect.Kind.  [OtherKind] stands for any value of the underlying
    integer type that is none of the eighteen declared kinds. *)
Inductive Kind : Type :=
| BoolKind | EnumKind
| Int32Kind | Sint32Kind | Uint32Kind
| Int64Kind | Sint64Kind | Uint64Kind
| Sfixed32Kind | Fixed32Kind | FloatKind
| Sfixed64Kind | Fixed64Kind | DoubleKind
| StringKind | BytesKind | MessageKind | GroupKind
| OtherKind (n : Z).

Inductive Cardinality : Type := Optional | Required | Repeated.

Inductive Syntax : Type := Proto2 | Proto3.

Record EnumValueDescriptor : Type := mkEnumValue {
  ev_Name : string;
  ev_Number : Z
}.

Record EnumDescriptor : Type := mkEnum {
  ed_FullName : string;
  ed_Values : list EnumValueDescriptor
}.

(** Values().ByNumber(n): the first declared value carrying the number. *)
Definition ByNumber (ed : EnumDescriptor) (n : Z) : option EnumValueDescriptor :=
  find (fun v => ev_Number v =? n) (ed_Values ed).

(** protoreflect.FieldDescriptor, as the encoder observes it.  Of
    [fd.Message()] the encoder only tests for nil and asks for [Name()], so
    the descriptor keeps that name ([None] for nil); this also keeps
    recursive message types representable.  Of [fd.Default()] it only asks
    [IsValid()].  [fd_IsMessageSetExtension] is what
    messageset.IsMessageSetExtension reports for the descriptor. *)
Inductive FieldDescriptor : Type := mkField {
  fd_Name : string;
  fd_FullName : string;
  fd_JSONName : string;
  fd_Kind : Kind;
  fd_Cardinality : Cardinality;
  fd_Syntax : Syntax;
  fd_Default_IsValid : bool;
  fd_ContainingOneof : option string;
  fd_IsExtension : bool;
  fd_IsMessageSetExtension : bool;
  fd_IsList : bool;
  fd_IsMap : bool;
  fd_Message_Name : option string;
  fd_Enum : option EnumDescriptor;
  fd_MapKey : option FieldDescriptor;
  fd_MapValue : option FieldDescriptor
}.

(** protoreflect.MessageDescriptor.  [md_IsMessageSet] is what
    messageset.IsMessageSet reports for the descriptor. *)
Record MessageDescriptor : Type := mkMessageDescriptor {
  md_FullName : string;
  md_IsMessageSet : bool;
  md_Fields : list FieldDescriptor
}.

(** protoreflect.MapKey: the value types a map key can hold. *)
Inductive MapKey : Type :=
| KBool (b : bool)
| KInt32 (n : Z)
| KInt64 (n : Z)
| KUint32 (n : Z)
| KUint64 (n : Z)
| KString (s : string).

(** protoreflect.Value and protoreflect.Message.  A float is carried as the
    bit pattern of the float64 that [Float()] returns.  A list is the
    sequence of its elements; a map is the sequence of entries in the order
    its [Range] visits them.  A message is what its interface exposes:
    [Descriptor()], [Has], [Get] and the sequence of populated fields in the
    order [Range] visits them. *)
Inductive Value : Type :=
| VInvalid
| VBool (b : bool)
| VInt32 (n : Z)
| VInt64 (n : Z)
| VUint32 (n : Z)
| VUint64 (n : Z)
| VFloat32 (bits : Z)
| VFloat64 (bits : Z)
| VString (s : string)
| VBytes (bs : list Byte.byte)
| VEnum (n : Z)
| VMessage (m : Message)
| VList (l : list Value)
| VMap (entries : list (MapKey * Value))
with Message : Type :=
| mkMessage (descriptor : MessageDescriptor)
            (has : FieldDescriptor -> bool)
            (get : FieldDescriptor -> Value)
            (range : list (FieldDescriptor * Value)).

Definition Descriptor (m : Message) : MessageDescriptor :=
  match m with mkMessage d _ _ _ => d end.

Definition Has (m : Message) (fd : FieldDescriptor) : bool :=
  match m with mkMessage _ h _ _ => h fd end.

Definition Get (m : Message) (fd : FieldDescriptor) : Value :=
  match m with mkMessage _ _ g _ => g fd end.

Definition Range (m : Message) : list (FieldDescriptor * Value) :=
  match m with mkMessage _ _ _ r => r end.

Definition IsValid (v : Value) : bool :=
  match v with VInvalid => false | _ => true end.

(** strconv's base-10 rendering of an integer, as fmt.Sprint applies it. *)
Definition FormatInt (n : Z) : string := NilZero.string_of_int (Z.to_int n).

Definition FormatBool (b : bool) : string :=
  if b then "true"%string else "false"%string.

(** Typed accessors of Value; [None] is the accessor's type-mismatch panic. *)
Definition Value_Bool (v : Value) : option bool :=
  match v with VBool b => Some b | _ => None end.

Definition Value_Int (v : Value) : option Z :=
  match v with VInt32 n | VInt64 n => Some n | _ => None end.

Definition Value_Uint (v : Value) : option Z :=
  match v with VUint32 n | VUint64 n => Some n | _ => None end.

Definition Value_Float (v : Value) : option Z :=
  match v with VFloat32 b | VFloat64 b => Some b | _ => None end.

Definition Value_Bytes (v : Value) : option (list Byte.byte) :=
  match v with VBytes bs => Some bs | _ => None end.

Definition Value_Enum (v : Value) : option Z :=
  match v with VEnum n => Some n | _ => None end.

Definition Value_Message (v : Value) : option Message :=
  match v with VMessage m => Some m | _ => None end.

Definition Value_List (v : Value) : option (list Value) :=
  match v with VList l => Some l | _ => None end.

Definition Value_Map (v : Value) : option (list (MapKey * Value)) :=
  match v with VMap es => Some es | _ => None end.

Definition MapKey_Int (k : MapKey) : option Z :=
  match k with KInt32 n | KInt64 n => Some n | _ => None end.

Definition MapKey_Uint (k : MapKey) : option Z :=
  match k with KUint32 n | KUint64 n => Some n | _ => None end.

(** [String()] never panics: a string is returned as it is, any other type
    is formatted. *)
Definition MapKey_String (k : MapKey) : string :=
  match k with
  | KString s => s
  | KBool b => FormatBool b
  | KInt32 n | KInt64 n | KUint32 n | KUint64 n => FormatInt n
  end.

(** ** Errors and the JSON token writer (internal/encoding/json) *)

Inductive error : Type :=
| errors_New (msg : string)
| errors_InvalidUTF8 (s : string)
| errors_RequiredNotSet (field : string).

(** What the writer has been asked to append.  [TRejected s] records that
    the writer was handed a string it refuses: whatever it appended for [s]
    before giving up. *)
Inductive Token : Type :=
| TStartObject | TEndObject
| TStartArray | TEndArray
| TName (s : string)
| TNull
| TBool (b : bool)
| TInt (n : Z)
| TUint (n : Z)
| TFloat (bits : Z) (bitSize : Z)
| TString (s : string)
| TRejected (s : string).

(** json.Encoder: the indent it was built with and its append-only output. *)
Record Encoder : Type := mkEncoder {
  enc_indent : string;
  enc_out : list Token
}.

Definition Encoder_append (e : Encoder) (ts : list Token) : Encoder :=
  mkEncoder (enc_indent e) (enc_out e ++ ts).

(** How one encoder call ends: a normal return carrying a value, a returned
    error, or a panic. *)
Inductive result (A : Type) : Type :=
| Ok (a : A)
| Err (err : error)
| Panic (msg : string).
Arguments Ok {A} a.
Arguments Err {A} err.
Arguments Panic {A} msg.

(** An encoder computation: the tokens it appended to [o.encoder] and how it
    ended; [None] when the recursion budget of the model ran out. *)
Definition M (A : Type) : Type := option (list Token * result A).

Definition ret {A} (a : A) : M A := Some ([], Ok a).

Definition bind {A B} (m : M A) (f : A -> M B) : M B :=
  match m with
  | None => None
  | Some (ts, Ok a) =>
      match f a with
      | None => None
      | Some (ts', r) => Some (ts ++ ts', r)
      end
  | Some (ts, Err err) => Some (ts, Err err)
  | Some (ts, Panic msg) => Some (ts, Panic msg)
  end.

Notation "x <- m ;; k" := (bind m (fun x => k))
  (at level 61, m at next level, right associativity).
Notation "m ;; k" := (bind m (fun _ => k))
  (at level 61, right associativity).

Definition tell (ts : list Token) : M unit := Some (ts, Ok tt).

Definition fail {A} (err : error) : M A := Some ([], Err err).

Definition panic {A} (msg : string) : M A := Some ([], Panic msg).

(** A typed accessor used where the value has another type panics. *)
Definition access {A} (x : option A) : M A :=
  match x with
  | Some a => ret a
  | None => panic "value type mismatch"
  end.

(** A method called on a nil interface value panics. *)
Definition deref {A} (x : option A) : M A :=
  match x with
  | Some a => ret a
  | None => panic "nil pointer dereference"
  end.

(** [defer d] around a body: the deferred tokens are appended when the body
    returns, with or without an error. *)
Definition defer (d : list Token) (body : M unit) : M unit :=
  match body with
  | None => None
  | Some (ts, r) => Some (ts ++ d, r)
  end.

(** A call whose returned error is dropped by the caller. *)
Definition ignore_error (m : M unit) : M unit :=
  match m with
  | Some (ts, Err _) => Some (ts, Ok tt)
  | _ => m
  end.

(** A loop over a slice that returns at the first error. *)
Fixpoint forM {A} (f : A -> M unit) (l : list A) : M unit :=
  match l with
  | [] => ret tt
  | x :: l' => f x ;; forM f l'
  end.

(** The first error a check reports over a slice, if any. *)
Definition first_error {A} (f : A -> option error) : list A -> option error :=
  fix go (l : list A) : option error :=
    match l with
    | [] => None
    | x :: l' =>
        match f x with
        | Some e => Some e
        | None => go l'
        end
    end.

(** The error for a required field that is not set. *)
Definition required_unset (has : FieldDescriptor -> bool) (fd : FieldDescriptor)
  : option error :=
  match fd_Cardinality fd with
  | Required =>
      if has fd then None else Some (errors_RequiredNotSet (fd_FullName fd))
  | _ => None
  end.

(** Modelled from the spec: proto.IsInitialized, the completeness predicate
    of the reflection collaborator (proto/isinit.go is not part of the
    sources at hand).  A message is complete when every field of
    cardinality [Required] is set, in the message itself and in every
    message reachable through its populated fields; the error names the
    first unset required field met. *)
Fixpoint IsInitialized (m : Message) : option error :=
  match m with
  | mkMessage d has _ range =>
      match first_error (required_unset has) (md_Fields d) with
      | Some e => Some e
      | None => first_error (fun p => IsInitialized_value (snd p)) range
      end
  end
with IsInitialized_value (v : Value) : option error :=
  match v with
  | VMessage m => IsInitialized m
  | VList l => first_error IsInitialized_value l
  | VMap es => first_error (fun kv => IsInitialized_value (snd kv)) es
  | _ => None
  end.

(** A required field is unset somewhere in the message graph: in the
    message itself, or in a message reached through a populated field. *)
Inductive missing_required : Message -> Prop :=
| missing_here (m : Message) (fd : FieldDescriptor) :
    In fd (md_Fields (Descriptor m)) ->
    fd_Cardinality fd = Required ->
    Has m fd = false ->
    missing_required m
| missing_below (m : Message) (fd : FieldDescriptor) (v : Value) :
    In (fd, v) (Range m) ->
    missing_in_value v ->
    missing_required m
with missing_in_value : Value -> Prop :=
| missing_in_message (m : Message) :
    missing_required m -> missing_in_value (VMessage m)
| missing_in_list (l : list Value) (v : Value) :
    In v l -> missing_in_value v -> missing_in_value (VList l)
| missing_in_map (es : list (MapKey * Value)) (k : MapKey) (v : Value) :
    In (k, v) es -> missing_in_value v -> missing_in_value (VMap es).

Scheme missing_required_mut := Minimality for missing_required Sort Prop
  with missing_in_value_mut := Minimality for missing_in_value Sort Prop.

(** How deep messages are nested in a value: the number of levels of
    [marshalMessage] calls that marshaling it can stack up. *)
Fixpoint depth (m : Message) : nat :=
  match m with
  | mkMessage d _ get range =>
      Nat.max (list_max (map (fun fd => depth_value (get fd)) (md_Fields d)))
              (list_max (map (fun p => depth_value (snd p)) range))
  end
with depth_value (v : Value) : nat :=
  match v with
  | VMessage m => S (depth m)
  | VList l => list_max (map depth_value l)
  | VMap es => list_max (map (fun kv => depth_value (snd kv)) es)
  | _ => O
  end.

(** ** The encoder *)

(** [x != nil] for a nilable interface value. *)
Definition isSome {A} (x : option A) : bool :=
  match x with Some _ => true | None => false end.

(** mapEntry of encode.go. *)
Record mapEntry : Type := mkMapEntry {
  key : MapKey;
  value : Value
}.

(** The entry type local to marshalExtensions. *)
Record entry : Type := mkEntry {
  entry_key : string;
  entry_value : Value;
  entry_desc : FieldDescriptor
}.

(** What Marshal hands back: its two return values, a nil slice being
    [None], or a panic. *)
Inductive MarshalReturn : Type :=
| Returned (b : option (list Byte.byte)) (err : option error)
| Panicked (msg : string).

(** protoregistry: a resolver is a handle the encoder passes on and never
    looks into; [GlobalTypes] is the process-wide default. *)
Inductive Resolver : Type :=
| GlobalTypes
| UserResolver (handle : Z).

(** MarshalOptions of encode.go; its encoder field is threaded by [M]. *)
Record MarshalOptions : Type := mkMarshalOptions {
  AllowPartial : bool;
  UseProtoNames : bool;
  UseEnumNumbers : bool;
  EmitUnpopulated : bool;
  Indent : string;
  Resolver_ : option Resolver
}.

(** The collaborators of encode.go that live in other files. *)
Class Collaborators : Type := {
  (** flags.ProtoLegacy, a build-time constant. *)
  ProtoLegacy : bool;
  (** Whether the token writer accepts a string for WriteName and
      WriteString; a refused string is the only way these two calls fail. *)
  string_accepted : string -> bool;
  (** Encoder.Bytes: the bytes the writer has produced for its tokens under
      its indent. *)
  render : string -> list Token -> list Byte.byte;
  (** base64.StdEncoding.EncodeToString. *)
  base64_EncodeToString : list Byte.byte -> string;
  (** fmt.Sprint on the value types other than booleans and integers. *)
  fmt_Sprint : Value -> string;
  (** protoreflect.FullName.Parent. *)
  FullName_Parent : string -> string;
  (** sort.Slice, as the slice it leaves behind. *)
  sort_Slice : forall A : Type, (A -> A -> bool) -> list A -> list A;
  (** well_known_types.go: the custom renderings of well-known types.  The
      hook writes through the same encoder; it is given by the tokens it
      appends and the way it ends. *)
  isCustomType : string -> bool;
  marshalCustomType : MarshalOptions -> Message -> list Token * result unit
}.

Section Encode.

Context {C : Collaborators}.

(** [Value.String()]. *)
Definition Value_String (v : Value) : string :=
  match v with
  | VString s => s
  | VBool b => FormatBool b
  | VInt32 n | VInt64 n | VUint32 n | VUint64 n | VEnum n => FormatInt n
  | _ => fmt_Sprint v
  end.

(** json.NewEncoder: the indent can only be composed of space or tab
    characters. *)
Fixpoint only_space_or_tab (s : string) : bool :=
  match s with
  | EmptyString => true
  | String c s' =>
      (Ascii.eqb c " " || Ascii.eqb c "009")%char && only_space_or_tab s'
  end.

Definition NewEncoder (indent : string) : Encoder + error :=
  if only_space_or_tab indent then inl (mkEncoder indent [])
  else inr (errors_New "indent may only be composed of space or tab characters").

Definition Bytes (e : Encoder) : list Byte.byte :=
  render (enc_indent e) (enc_out e).

Definition StartObject : M unit := tell [TStartObject].
Definition StartArray : M unit := tell [TStartArray].
Definition WriteNull : M unit := tell [TNull].
Definition WriteBool (b : bool) : M unit := tell [TBool b].
Definition WriteInt (n : Z) : M unit := tell [TInt n].
Definition WriteUint (n : Z) : M unit := tell [TUint n].
Definition WriteFloat (bits bitSize : Z) : M unit := tell [TFloat bits bitSize].

Definition WriteString (s : string) : M unit :=
  if string_accepted s then tell [TString s]
  else Some ([TRejected s], Err (errors_InvalidUTF8 s)).

Definition WriteName (s : string) : M unit :=
  if string_accepted s then tell [TName s]
  else Some ([TRejected s], Err (errors_InvalidUTF8 s)).

Section Body.

Variable o : MarshalOptions.

(** The recursive call [o.marshalMessage]. *)
Variable marshalMessage_rec : Message -> M unit.

Definition is64 (k : Kind) : bool :=
  match k with
  | Int64Kind | Sint64Kind | Uint64Kind | Sfixed64Kind | Fixed64Kind => true
  | _ => false
  end.

(** marshalSingular marshals the given non-repeated field value. *)
Definition marshalSingular (val : Value) (fd : FieldDescriptor) : M unit :=
  if negb (IsValid val) then WriteNull
  else
    match fd_Kind fd with
    | BoolKind => b <- access (Value_Bool val) ;; WriteBool b
    | StringKind => WriteString (Value_String val)
    | Int32Kind | Sint32Kind | Sfixed32Kind =>
        n <- access (Value_Int val) ;; WriteInt n
    | Uint32Kind | Fixed32Kind =>
        n <- access (Value_Uint val) ;; WriteUint n
    | Int64Kind | Sint64Kind | Uint64Kind | Sfixed64Kind | Fixed64Kind =>
        ignore_error (WriteString (Value_String val))
    | FloatKind => f <- access (Value_Float val) ;; WriteFloat f 32
    | DoubleKind => f <- access (Value_Float val) ;; WriteFloat f 64
    | BytesKind =>
        bs <- access (Value_Bytes val) ;;
        WriteString (base64_EncodeToString bs)
    | EnumKind =>
        ed <- deref (fd_Enum fd) ;;
        if String.eqb (ed_FullName ed) "google.protobuf.NullValue"
        then WriteNull
        else
          n <- access (Value_Enum val) ;;
          match ByNumber ed n with
          | Some desc =>
              if UseEnumNumbers o then WriteInt n
              else WriteString (ev_Name desc)
          | None => WriteInt n
          end
    | MessageKind | GroupKind =>
        m <- access (Value_Message val) ;; marshalMessage_rec m
    | OtherKind _ => panic "unknown kind"
    end.

(** marshalList marshals the given protoreflect.List. *)
Definition marshalList (list_ : list Value) (fd : FieldDescriptor) : M unit :=
  StartArray ;;
  defer [TEndArray] (forM (fun item => marshalSingular item fd) list_).

(** The comparison sortMap hands to sort.Slice; [None] where a key accessor
    panics. *)
Definition sortMap_less (keyKind : Kind) (a b : mapEntry) : option bool :=
  match keyKind with
  | Int32Kind | Sint32Kind | Sfixed32Kind
  | Int64Kind | Sint64Kind | Sfixed64Kind =>
      match MapKey_Int (key a), MapKey_Int (key b) with
      | Some x, Some y => Some (x <? y)
      | _, _ => None
      end
  | Uint32Kind | Fixed32Kind | Uint64Kind | Fixed64Kind =>
      match MapKey_Uint (key a), MapKey_Uint (key b) with
      | Some x, Some y => Some (x <? y)
      | _, _ => None
      end
  | _ => Some (String.ltb (MapKey_String (key a)) (MapKey_String (key b)))
  end.

Definition sortMap_comparable (keyKind : Kind) (a : mapEntry) : bool :=
  match sortMap_less keyKind a a with Some _ => true | None => false end.

Definition sortMap_lessb (keyKind : Kind) (a b : mapEntry) : bool :=
  match sortMap_less keyKind a b with
  | Some r => r
  | None => false
  end.

(** sortMap orders list based on value of key field.  sort.Slice calls the
    comparison only on slices of two or more elements, and then on every
    element, so a key of the wrong type panics exactly then. *)
Definition sortMap (keyKind : Kind) (values : list mapEntry) : M (list mapEntry) :=
  if (2 <=? Z.of_nat (List.length values))
     && negb (forallb (sortMap_comparable keyKind) values)
  then panic "value type mismatch"
  else ret (sort_Slice mapEntry (sortMap_lessb keyKind) values).

(** The entries [mmap.Range] appends to the slice. *)
Definition map_entries (mmap : list (MapKey * Value)) : list mapEntry :=
  map (fun kv => mkMapEntry (fst kv) (snd kv)) mmap.

(** [o.marshalSingular(entry.value, fd.MapValue())] *)
Definition marshalMapValue (fd : FieldDescriptor) (val : Value) : M unit :=
  match fd_MapValue fd with
  | Some vfd => marshalSingular val vfd
  | None =>
      (* a nil descriptor is only touched for a valid value *)
      if negb (IsValid val) then WriteNull
      else panic "nil pointer dereference"
  end.

(** One turn of the loop of marshalMap over the sorted entries. *)
Definition marshalMapEntry (fd : FieldDescriptor) (entry : mapEntry) : M unit :=
  WriteName (MapKey_String (key entry)) ;;
  marshalMapValue fd (value entry).

(** marshalMap marshals given protoreflect.Map. *)
Definition marshalMap (mmap : list (MapKey * Value)) (fd : FieldDescriptor) : M unit :=
  StartObject ;;
  defer [TEndObject]
    (let entries := map_entries mmap in
     kfd <- deref (fd_MapKey fd) ;;
     entries <- sortMap (fd_Kind kfd) entries ;;
     forM (marshalMapEntry fd) entries).

(** marshalValue marshals the given protoreflect.Value. *)
Definition marshalValue (val : Value) (fd : FieldDescriptor) : M unit :=
  if fd_IsList fd then l <- access (Value_List val) ;; marshalList l fd
  else if fd_IsMap fd then es <- access (Value_Map val) ;; marshalMap es fd
  else marshalSingular val fd.

(** The name an extension is collected under. *)
Definition extension_key (fd : FieldDescriptor) : string :=
  if fd_IsMessageSetExtension fd then FullName_Parent (fd_FullName fd)
  else fd_FullName fd.

(** The callback marshalExtensions passes to [m.Range]. *)
Definition collect_extensions (populated : list (FieldDescriptor * Value)) : list entry :=
  flat_map (fun p =>
              if negb (fd_IsExtension (fst p)) then []
              else [mkEntry (extension_key (fst p)) (snd p) (fst p)])
           populated.

(** The comparison marshalExtensions hands to sort.Slice. *)
Definition entry_less (a b : entry) : bool :=
  String.ltb (entry_key a) (entry_key b).

(** One turn of the loop of marshalExtensions over the sorted entries. *)
Definition marshalExtension (entry : entry) : M unit :=
  WriteName ("[" ++ entry_key entry ++ "]")%string ;;
  marshalValue (entry_value entry) (entry_desc entry).

(** marshalExtensions marshals extension fields. *)
Definition marshalExtensions (m : Message) : M unit :=
  let entries := collect_extensions (Range m) in
  let entries := sort_Slice entry entry_less entries in
  forM marshalExtension entries.

(** [fd.Syntax() == pref.Proto2 && fd.Default().IsValid()] *)
Definition isProto2Scalar (fd : FieldDescriptor) : bool :=
  match fd_Syntax fd with
  | Proto2 => fd_Default_IsValid fd
  | Proto3 => false
  end.

(** [fd.Cardinality() != pref.Repeated && fd.Message() != nil] *)
Definition isSingularMessage (fd : FieldDescriptor) : bool :=
  match fd_Cardinality fd with
  | Repeated => false
  | _ => isSome (fd_Message_Name fd)
  end.

(** The value marshalFields hands on for a declared field, [None] when the
    field is skipped. *)
Definition field_value (m : Message) (fd : FieldDescriptor) : option Value :=
  let val := Get m fd in
  if negb (Has m fd) then
    if negb (EmitUnpopulated o) || isSome (fd_ContainingOneof fd) then None
    else
      if isProto2Scalar fd || isSingularMessage fd then Some VInvalid
      else Some val
  else Some val.

(** The name marshalFields writes for a declared field. *)
Definition field_name (fd : FieldDescriptor) : M string :=
  if UseProtoNames o then
    match fd_Kind fd with
    | GroupKind => deref (fd_Message_Name fd)
    | _ => ret (fd_Name fd)
    end
  else ret (fd_JSONName fd).

(** One turn of the loop over the declared fields. *)
Definition marshalField (m : Message) (fd : FieldDescriptor) : M unit :=
  match field_value m fd with
  | None => ret tt
  | Some val =>
      name <- field_name fd ;;
      WriteName name ;;
      marshalValue val fd
  end.

(** The loop of marshalFields over the declared fields. *)
Definition marshalKnownFields (m : Message) : M unit :=
  forM (marshalField m) (md_Fields (Descriptor m)).

Definition no_MessageSets : error :=
  errors_New "no support for proto1 MessageSets".

(** marshalFields marshals the fields in the given protoreflect.Message. *)
Definition marshalFields (m : Message) : M unit :=
  let messageDesc := Descriptor m in
  if negb ProtoLegacy && md_IsMessageSet messageDesc
  then fail no_MessageSets
  else
    marshalKnownFields m ;;
    marshalExtensions m.

(** marshalMessage marshals the given protoreflect.Message. *)
Definition marshalMessage_body (m : Message) : M unit :=
  if isCustomType (md_FullName (Descriptor m)) then Some (marshalCustomType o m)
  else
    StartObject ;;
    defer [TEndObject] (marshalFields m).

End Body.

(** The recursion of marshalMessage through embedded messages, unfolded
    [fuel] levels deep. *)
Fixpoint marshalMessage (fuel : nat) (o : MarshalOptions) (m : Message) : M unit :=
  match fuel with
  | O => None
  | S fuel' => marshalMessage_body o (marshalMessage fuel' o) m
  end.

(** [if o.Resolver == nil { o.Resolver = protoregistry.GlobalTypes }] *)
Definition default_Resolver (o : MarshalOptions) : MarshalOptions :=
  match Resolver_ o with
  | None =>
      mkMarshalOptions (AllowPartial o) (UseProtoNames o) (UseEnumNumbers o)
        (EmitUnpopulated o) (Indent o) (Some GlobalTypes)
  | Some _ => o
  end.

(** MarshalOptions.Marshal. *)
Definition MarshalOptions_Marshal (fuel : nat) (o : MarshalOptions) (m : Message) : option MarshalReturn :=
  match NewEncoder (Indent o) with
  | inr err => Some (Returned None (Some err))
  | inl encoder =>
      let o := default_Resolver o in
      match marshalMessage fuel o m with
      | None => None
      | Some (_, Panic msg) => Some (Panicked msg)
      | Some (_, Err err) => Some (Returned None (Some err))
      | Some (ts, Ok _) =>
          let encoder := Encoder_append encoder ts in
          if AllowPartial o then Some (Returned (Some (Bytes encoder)) None)
          else Some (Returned (Some (Bytes encoder)) (IsInitialized m))
      end
  end.

(** Marshal writes the given proto.Message in JSON format using default
    options. *)
Definition Marshal (fuel : nat) (m : Message) : option MarshalReturn :=
  MarshalOptions_Marshal fuel
    (mkMarshalOptions false false false false "" None) m.

End Encode.

(** ** Messages with the same logical content

    Two values have the same content when they differ at most in the order
    in which maps hand out their entries and messages their populated
    fields.  Entries of one map have distinct key strings, and the
    extensions held by one message are collected under distinct names. *)
Definition perm_equiv {A} (R : A -> A -> Prop) (l1 l2 : list A) : Prop :=
  exists l', Permutation l1 l' /\ Forall2 R l' l2.

Definition is_composite (v : Value) : bool :=
  match v with
  | VMessage _ | VList _ | VMap _ => true
  | _ => false
  end.

Section Equivalence.

Context {C : Collaborators}.

Inductive value_equiv : Value -> Value -> Prop :=
| equiv_scalar (v : Value) :
    is_composite v = false -> value_equiv v v
| equiv_message (m1 m2 : Message) :
    message_equiv m1 m2 -> value_equiv (VMessage m1) (VMessage m2)
| equiv_list (l1 l2 : list Value) :
    Forall2 value_equiv l1 l2 -> value_equiv (VList l1) (VList l2)
| equiv_map (es1 es1' es2 : list (MapKey * Value)) :
    NoDup (map (fun kv => MapKey_String (fst kv)) es1) ->
    Permutation es1 es1' ->
    Forall2 (fun a b => fst a = fst b /\ value_equiv (snd a) (snd b)) es1' es2 ->
    value_equiv (VMap es1) (VMap es2)
with message_equiv : Message -> Message -> Prop :=
| equiv_fields (d : MessageDescriptor)
    (has1 has2 : FieldDescriptor -> bool)
    (get1 get2 : FieldDescriptor -> Value)
    (range1 range1' range2 : list (FieldDescriptor * Value)) :
    (forall fd, In fd (md_Fields d) -> has1 fd = has2 fd) ->
    (forall fd, In fd (md_Fields d) -> value_equiv (get1 fd) (get2 fd)) ->
    NoDup (map entry_key (collect_extensions range1)) ->
    Permutation range1 range1' ->
    Forall2 (fun a b => fst a = fst b /\ value_equiv (snd a) (snd b))
      range1' range2 ->
    message_equiv (mkMessage d has1 get1 range1) (mkMessage d has2 get2 range2).

(** The same content, for an entry of a map, a populated field and a
    collected extension. *)
Definition mapEntry_equiv (a b : mapEntry) : Prop :=
  key a = key b /\ value_equiv (value a) (value b).

Definition populated_equiv (a b : FieldDescriptor * Value) : Prop :=
  fst a = fst b /\ value_equiv (snd a) (snd b).

Definition entry_equiv (a b : entry) : Prop :=
  entry_key a = entry_key b /\
  entry_desc a = entry_desc b /\
  value_equiv (entry_value a) (entry_value b).

End Equivalence.

(** The byte slice a call of Marshal hands back. *)
Definition returned_bytes (r : MarshalReturn) : option (list Byte.byte) :=
  match r with
  | Returned b _ => b
  | Panicked _ => None
  end.

(** ** The contract of sort.Slice

    For a comparison that is a strict weak ordering of the elements of the
    slice, the slice is left a permutation of itself in which no element is
    less than one before it.  Nothing is promised on the order of elements
    that compare equal. *)
Definition strict_weak_order_on {A} (l : list A) (less : A -> A -> bool) : Prop :=
  (forall a, In a l -> less a a = false) /\
  (forall a b c, In a l -> In b l -> In c l ->
     less a b = true -> less b c = true -> less a c = true) /\
  (forall a b c, In a l -> In b l -> In c l ->
     less a b = false -> less b c = false -> less a c = false).

Definition sort_contract
  (sort : forall A : Type, (A -> A -> bool) -> list A -> list A) : Prop :=
  forall (A : Type) (less : A -> A -> bool) (l : list A),
    Permutation (sort A less l) l /\
    (strict_weak_order_on l less ->
     StronglySorted (fun a b => less b a = false) (sort A less l)).

(** A boolean comparison that is a strict total order. *)
Definition strict_total_order {T} (lt : T -> T -> bool) : Prop :=
  (forall x, lt x x = false) /\
  (forall x y z, lt x y = true -> lt y z = true -> lt x z = true) /\
  (forall x y, lt x y = false -> lt y x = false -> x = y).

(** The key of an entry as the comparison of sortMap reads it. *)
Definition int_of (e : mapEntry) : Z :=
  match MapKey_Int (key e) with Some x => x | None => 0 end.

Definition uint_of (e : mapEntry) : Z :=
  match MapKey_Uint (key e) with Some x => x | None => 0 end.

Definition text_of (e : mapEntry) : string := MapKey_String (key e).

(** The Go type a map key has for each key kind. *)
Definition MapKey_has_kind (k : Kind) (key : MapKey) : bool :=
  match k, key with
  | (Int32Kind | Sint32Kind | Sfixed32Kind), KInt32 _ => true
  | (Int64Kind | Sint64Kind | Sfixed64Kind), KInt64 _ => true
  | (Uint32Kind | Fixed32Kind), KUint32 _ => true
  | (Uint64Kind | Fixed64Kind), KUint64 _ => true
  | StringKind, KString _ => true
  | BoolKind, KBool _ => true
  | _, _ => false
  end.

(** Ascending order of map keys: numeric for integers, lexicographic by
    byte for strings, false before true for booleans. *)
Definition key_ascending (a b : MapKey) : Prop :=
  match a, b with
  | KInt32 x, KInt32 y | KInt64 x, KInt64 y
  | KUint32 x, KUint32 y | KUint64 x, KUint64 y => x < y
  | KString s, KString t => String.ltb s t = true
  | KBool x, KBool y => x = false /\ y = true
  | _, _ => False
  end.

(** ** The shape of a token stream *)

(** The containers that are open while a token stream is read. *)
Inductive Container : Type := InObject | InArray.

(** Reading a token stream with the stack of the containers that are open:
    an end token closes the innermost open container, which must be of its
    own kind. *)
Fixpoint open_containers (stack : list Container) (ts : list Token)
  : option (list Container) :=
  match ts with
  | [] => Some stack
  | TStartObject :: ts' => open_containers (InObject :: stack) ts'
  | TStartArray :: ts' => open_containers (InArray :: stack) ts'
  | TEndObject :: ts' =>
      match stack with
      | InObject :: stack' => open_containers stack' ts'
      | _ => None
      end
  | TEndArray :: ts' =>
      match stack with
      | InArray :: stack' => open_containers stack' ts'
      | _ => None
      end
  | _ :: ts' => open_containers stack ts'
  end.

(** Every object and array that is opened is closed, in nesting order. *)
Definition balanced (ts : list Token) : Prop :=
  open_containers [] ts = Some [].

Definition is_bracket (t : Token) : bool :=
  match t with
  | TStartObject | TEndObject | TStartArray | TEndArray => true
  | _ => false
  end.

(** No string was refused by the writer. *)
Definition accepted_only (ts : list Token) : bool :=
  forallb (fun t => match t with TRejected _ => false | _ => true end) ts.

(** The members of a JSON object: names, each followed by its value. *)
Definition members_tokens (members : list (string * list Token)) : list Token :=
  flat_map (fun nv => TName (fst nv) :: snd nv) members.

(** The token streams that spell one JSON value. *)
Inductive JSON_value : list Token -> Prop :=
| JSON_null : JSON_value [TNull]
| JSON_bool (b : bool) : JSON_value [TBool b]
| JSON_int (n : Z) : JSON_value [TInt n]
| JSON_uint (n : Z) : JSON_value [TUint n]
| JSON_float (bits bitSize : Z) : JSON_value [TFloat bits bitSize]
| JSON_string (s : string) : JSON_value [TString s]
| JSON_array (items : list (list Token)) :
    Forall JSON_value items ->
    JSON_value (TStartArray :: List.concat items ++ [TEndArray])
| JSON_object (members : list (string * list Token)) :
    Forall (fun nv => JSON_value (snd nv)) members ->
    JSON_value (TStartObject :: members_tokens members ++ [TEndObject]).

(** The token streams that spell the members of a JSON object. *)
Definition JSON_members (ts : list Token) : Prop :=
  exists members,
    Forall (fun nv => JSON_value (snd nv)) members /\
    ts = members_tokens members.

(** ** Invariants of the outcomes

    A computation keeps [T] and [E] when, however it ends, the tokens it
    appended satisfy [T] and the error it returned, if any, satisfies [E]. *)
Definition outcome_inv (T : list Token -> Prop) (E : error -> Prop)
  {A} (m : M A) : Prop :=
  forall ts r, m = Some (ts, r) -> T ts /\ forall err, r = Err err -> E err.

(** ** Well-typed messages

    What protoreflect guarantees of the values a message hands out: the Go
    type of a value is the one of its field's kind, a list field holds a
    list and a map field a map with keys of the key kind, an enum field has
    an enum descriptor and a group field a message descriptor, and a list
    or map field is repeated and has no default.  Nothing is asked of the
    value of an unset singular message field, which the encoder never looks
    at: a message type that contains itself has no finite default value. *)
Definition scalar_has_kind (k : Kind) (v : Value) : bool :=
  match k, v with
  | BoolKind, VBool _ => true
  | (Int32Kind | Sint32Kind | Sfixed32Kind), VInt32 _ => true
  | (Int64Kind | Sint64Kind | Sfixed64Kind), VInt64 _ => true
  | (Uint32Kind | Fixed32Kind), VUint32 _ => true
  | (Uint64Kind | Fixed64Kind), VUint64 _ => true
  | FloatKind, VFloat32 _ => true
  | DoubleKind, VFloat64 _ => true
  | StringKind, VString _ => true
  | BytesKind, VBytes _ => true
  | _, _ => false
  end.

Definition singular_conforms (well_typed : Message -> bool)
  (fd : FieldDescriptor) (v : Value) : bool :=
  match v with
  | VMessage m =>
      match fd_Kind fd with
      | MessageKind | GroupKind => well_typed m
      | _ => false
      end
  | VEnum _ =>
      match fd_Kind fd with
      | EnumKind => isSome (fd_Enum fd)
      | _ => false
      end
  | _ => scalar_has_kind (fd_Kind fd) v
  end.

Definition field_wellformed (fd : FieldDescriptor) : bool :=
  (if fd_IsList fd || fd_IsMap fd
   then negb (fd_Default_IsValid fd)
        && match fd_Cardinality fd with Repeated => true | _ => false end
   else true)
  && match fd_Kind fd with
     | GroupKind => isSome (fd_Message_Name fd)
     | _ => true
     end.

Fixpoint well_typed (m : Message) : bool :=
  match m with
  | mkMessage d has get range =>
      forallb (fun fd =>
                 field_wellformed fd
                 && ((negb (has fd) && isSingularMessage fd)
                     || conforms fd (get fd)))
        (md_Fields d)
      && forallb (fun p => negb (fd_IsExtension (fst p))
                           || conforms (fst p) (snd p))
           range
  end
with conforms (fd : FieldDescriptor) (v : Value) : bool :=
  if fd_IsList fd then
    match v with
    | VList l => forallb (singular_conforms well_typed fd) l
    | _ => false
    end
  else if fd_IsMap fd then
    match v with
    | VMap es =>
        match fd_MapKey fd, fd_MapValue fd with
        | Some kfd, Some vfd =>
            forallb (fun kv => MapKey_has_kind (fd_Kind kfd) (fst kv)
                               && singular_conforms well_typed vfd (snd kv))
              es
        | _, _ => false
        end
    | _ => false
    end
  else singular_conforms well_typed fd v.

(** A computation that does not end in a panic. *)
Definition never_panics {A} (m : M A) : Prop :=
  forall ts msg, m <> Some (ts, Panic msg).

(** ** A concrete build, for running the encoder

    ProtoLegacy is off, as in the default build, and no type has a custom
    rendering; the other collaborators are simple stand-ins. *)
Module Demo.

(** Insertion sort, as one realisation of sort.Slice. *)
Fixpoint insert {A} (less : A -> A -> bool) (x : A) (l : list A) : list A :=
  match l with
  | [] => [x]
  | y :: l' => if less y x then y :: insert less x l' else x :: l
  end.

Fixpoint isort (A : Type) (less : A -> A -> bool) (l : list A) : list A :=
  match l with
  | [] => []
  | x :: l' => insert less x (isort A less l')
  end.

(** A writer that accepts the strings made of 7-bit characters only. *)
Fixpoint ascii_only (s : string) : bool :=
  match s with
  | EmptyString => true
  | String c s' => (N_of_ascii c <? 128)%N && ascii_only s'
  end.

(** A compact rendering, without escaping and with floats as their bits. *)
Definition quote (s : string) : string := (String "034" s ++ String "034" "")%string.

Definition token_text (t : Token) : string :=
  match t with
  | TStartObject => "{"
  | TEndObject => "}"
  | TStartArray => "["
  | TEndArray => "]"
  | TName s => quote s ++ ":"
  | TNull => "null"
  | TBool b => FormatBool b
  | TInt n | TUint n | TFloat n _ => FormatInt n
  | TString s | TRejected s => quote s
  end%string.

Fixpoint render_from (comma : bool) (ts : list Token) : string :=
  match ts with
  | [] => ""
  | t :: ts' =>
      let closing := match t with TEndObject | TEndArray => true | _ => false end in
      let opening :=
        match t with TStartObject | TStartArray | TName _ => true | _ => false end in
      ((if comma && negb closing then "," else "")
       ++ token_text t ++ render_from (negb opening) ts')
  end%string.

Definition render_compact (indent : string) (ts : list Token) : list Byte.byte :=
  list_byte_of_string (render_from false ts).

Definition base64 (bs : list Byte.byte) : string := ""%string.

Definition Sprint (v : Value) : string := ""%string.

(** FullName.Parent: the name up to its last dot. *)
Fixpoint Parent (s : string) : string :=
  match s with
  | EmptyString => EmptyString
  | String c s' =>
      if existsb (Ascii.eqb ".") (list_ascii_of_string s')
      then String c (Parent s')
      else EmptyString
  end.

Definition noCustomType (name : string) : bool := false.

Definition noHook (o : MarshalOptions) (m : Message) : list Token * result unit :=
  ([], Ok tt).

Definition collaborators : Collaborators := {|
  ProtoLegacy := false;
  string_accepted := ascii_only;
  render := render_compact;
  base64_EncodeToString := base64;
  fmt_Sprint := Sprint;
  FullName_Parent := Parent;
  sort_Slice := isort;
  isCustomType := noCustomType;
  marshalCustomType := noHook
|}.

Definition options : MarshalOptions :=
  mkMarshalOptions false false false false ""%string None.

(** A scalar field of the given kind. *)
Definition scalar (name : string) (k : Kind) (c : Cardinality) (s : Syntax)
  : FieldDescriptor :=
  mkField name ("pkg.M." ++ name)%string name k c s true None
    false false false false None None None None.

(** A singular field holding a message or a group. *)
Definition embedded (name json type : string) (k : Kind) : FieldDescriptor :=
  mkField name ("pkg.M." ++ name)%string json k Optional Proto2 false None
    false false false false (Some type) None None None.

(** An extension field of kind int32. *)
Definition extension (name fullname : string) : FieldDescriptor :=
  mkField name fullname name Int32Kind Optional Proto2 true None
    true false false false None None None None.

(** A message that holds exactly the given fields; a field that is not set
    reads as zero. *)
Definition holds (fd : FieldDescriptor) (populated : list (FieldDescriptor * Value))
  : option Value :=
  option_map snd
    (find (fun p => String.eqb (fd_Name (fst p)) (fd_Name fd)) populated).

Definition message (name : string) (isSet : bool) (fields : list FieldDescriptor)
  (populated : list (FieldDescriptor * Value)) : Message :=
  mkMessage (mkMessageDescriptor name isSet fields)
    (fun fd => isSome (holds fd populated))
    (fun fd => match holds fd populated with Some v => v | None => VInt32 0 end)
    populated.

(** A message with an unset required field and a populated message set. *)
Definition required_id : FieldDescriptor := scalar "id" Int32Kind Required Proto2.

Definition set_field : FieldDescriptor :=
  embedded "set" "set" "MessageSet" MessageKind.

Definition a_message_set : Message := message "pkg.MessageSet" true [] [].

Definition incomplete_with_set : Message :=
  message "pkg.Outer" false [required_id; set_field]
    [(set_field, VMessage a_message_set)].

(** A message with an unset required field and nothing else. *)
Definition name_field : FieldDescriptor := scalar "name" StringKind Optional Proto2.

Definition incomplete : Message :=
  message "pkg.Person" false [required_id; name_field]
    [(name_field, VString "Ada")].

(** A message with a populated group field. *)
Definition group_field : FieldDescriptor :=
  embedded "optgroup" "optgroup" "OptGroup" GroupKind.

Definition with_group : Message :=
  message "pkg.G" false [group_field]
    [(group_field, VMessage (message "pkg.G.OptGroup" false [] []))].

(** An enum and a field of it. *)
Definition color : EnumDescriptor :=
  mkEnum "pkg.Color" [mkEnumValue "RED" 0; mkEnumValue "GREEN" 1].

Definition color_field : FieldDescriptor :=
  mkField "color" "pkg.M.color" "color" EnumKind Optional Proto3 true None
    false false false false None (Some color) None None.

(** A map field with keys of the given kind and values of kind int64. *)
Definition map_field (keyKind : Kind) : FieldDescriptor :=
  mkField "counts" "pkg.M.counts" "counts" MessageKind Repeated Proto3 false None
    false false false true (Some "CountsEntry"%string) None
    (Some (scalar "key" keyKind Optional Proto3))
    (Some (scalar "value" Int64Kind Optional Proto3)).

Definition counts : list (MapKey * Value) :=
  [(KInt32 10, VInt64 1); (KInt32 (-3), VInt64 2); (KInt32 7, VInt64 3)].

(** An unset proto3 field of kind bool. *)
Definition flag_field : FieldDescriptor := scalar "flag" BoolKind Optional Proto3.

Definition nothing_set : Message :=
  mkMessage (mkMessageDescriptor "pkg.Flags" false [flag_field; set_field])
    (fun _ => false)
    (fun fd =>
       match fd_Kind fd with
       | BoolKind => VBool false
       | _ => VMessage a_message_set
       end)
    [].

Definition emitting : MarshalOptions :=
  mkMarshalOptions false false false true ""%string None.

(** Two extensions whose names differ by a trailing digit. *)
Definition with_extensions : Message :=
  message "pkg.E" false []
    [(extension "ext2" "pkg.ext2", VInt32 2); (extension "ext" "pkg.ext", VInt32 1)].

(** One message stored in two ways: the entries of its map and its
    populated fields come out in different orders. *)
Definition counts_otherwise : list (MapKey * Value) :=
  [(KInt32 (-3), VInt64 2); (KInt32 10, VInt64 1); (KInt32 7, VInt64 3)].

Definition stored_one_way : Message :=
  message "pkg.S" false [map_field Int32Kind]
    [(extension "ext2" "pkg.ext2", VInt32 2);
     (map_field Int32Kind, VMap counts);
     (extension "ext" "pkg.ext", VInt32 1)].

Definition stored_another_way : Message :=
  message "pkg.S" false [map_field Int32Kind]
    [(map_field Int32Kind, VMap counts_otherwise);
     (extension "ext2" "pkg.ext2", VInt32 2);
     (extension "ext" "pkg.ext", VInt32 1)].

(** A string the writer of this build refuses: a character above the 7-bit
    range. *)
Definition not_ascii : string := String "200" "".

(** A list field of strings. *)
Definition tags_field : FieldDescriptor :=
  mkField "tags" "pkg.M.tags" "tags" StringKind Repeated Proto3 false None
    false false true false None None None None.

(** A field of kind int64. *)
Definition total_field : FieldDescriptor :=
  scalar "total" Int64Kind Optional Proto3.

(** A message whose second field fails: it holds a message set. *)
Definition failing_second : Message :=
  message "pkg.F" false [name_field; set_field; flag_field]
    [(name_field, VString "Ada"); (set_field, VMessage a_message_set);
     (flag_field, VBool true)].

(** A message with nothing set. *)
Definition empty_person : Message :=
  message "pkg.Person" false [required_id; name_field] [].

(** Options that differ from the default ones in AllowPartial and Resolver. *)
Definition partial : MarshalOptions :=
  mkMarshalOptions true false false false ""%string (Some (UserResolver 7)).

End Demo.

(** * Properties of the encoder *)

Section Properties.

Context {C : Collaborators}.

(** ** The monad *)

Lemma bind_ret_l {A B} (a : A) (f : A -> M B) : (x <- ret a ;; f x) = f a.
Proof. unfold bind, ret. destruct (f a) as [[ts r]|]; reflexivity. Qed.

Lemma first_error_In {A} (f : A -> option error) (l : list A) (x : A) :
  In x l -> f x <> None -> first_error f l <> None.
Proof.
  induction l as [|y l IH]; simpl; [tauto|].
  intros [->|Hin] Hx.
  - destruct (f x); [discriminate|congruence].
  - destruct (f y); [discriminate|]. apply IH; assumption.
Qed.

(** The completeness check reports an error as soon as a required field is
    unset anywhere in the message graph. *)
Lemma IsInitialized_missing (m : Message) :
  missing_required m -> IsInitialized m <> None.
Proof.
  intro H.
  induction H using missing_required_mut
    with (P0 := fun v => IsInitialized_value v <> None).
  - destruct m as [d has get range]; simpl in *.
    destruct (first_error (required_unset has) (md_Fields d)) eqn:E;
      [discriminate|].
    exfalso. revert E. apply first_error_In with (x := fd); [assumption|].
    unfold required_unset. rewrite H0, H1. discriminate.
  - destruct m as [d has get range]; simpl in *.
    destruct (first_error (required_unset has) (md_Fields d));
      [discriminate|].
    apply first_error_In with (x := (fd, v)); assumption.
  - simpl. assumption.
  - simpl. apply first_error_In with (x := v); assumption.
  - simpl. apply first_error_In with (x := (k, v)); assumption.
Qed.

(** ** Marshal and the completeness check *)

(** C1, as amended: when AllowPartial is false, a required field is unset
    somewhere in the message graph and marshaling the message body itself
    succeeds, Marshal returns a non-nil error together with the bytes of the
    tokens produced before the completeness check. *)
Theorem Marshal_incomplete_keeps_bytes
  (fuel : nat) (o : MarshalOptions) (m : Message)
  (encoder : Encoder) (ts : list Token) :
  AllowPartial o = false ->
  missing_required m ->
  NewEncoder (Indent o) = inl encoder ->
  marshalMessage fuel (default_Resolver o) m = Some (ts, Ok tt) ->
  exists err,
    IsInitialized m = Some err /\
    MarshalOptions_Marshal fuel o m
    = Some (Returned (Some (Bytes (Encoder_append encoder ts))) (Some err)).
Proof.
  intros Hpartial Hmissing Henc Hbody.
  destruct (IsInitialized m) as [err|] eqn:Hinit.
  2: { exfalso. exact (IsInitialized_missing m Hmissing Hinit). }
  exists err. split; [reflexivity|].
  unfold MarshalOptions_Marshal. rewrite Henc, Hbody.
  assert (Hp : AllowPartial (default_Resolver o) = false).
  { unfold default_Resolver. destruct (Resolver_ o); assumption. }
  rewrite Hp, Hinit. reflexivity.
Qed.

(** C10: an error returned while the message body is marshaled makes
    Marshal return a nil byte slice together with that error. *)
Theorem Marshal_body_error_returns_nil
  (fuel : nat) (o : MarshalOptions) (m : Message)
  (encoder : Encoder) (ts : list Token) (err : error) :
  NewEncoder (Indent o) = inl encoder ->
  marshalMessage fuel (default_Resolver o) m = Some (ts, Err err) ->
  MarshalOptions_Marshal fuel o m = Some (Returned None (Some err)).
Proof.
  intros Henc Hbody. unfold MarshalOptions_Marshal. rewrite Henc, Hbody. reflexivity.
Qed.

(** ** Message sets *)

(** C9: a message whose descriptor is a message set is rejected with the
    error "no support for proto1 MessageSets" when ProtoLegacy is off, in
    marshalFields and so in marshalMessage and Marshal; when ProtoLegacy is
    on, marshalFields goes on to the fields and extensions. *)
Theorem MessageSet_rejected_unless_legacy
  (o : MarshalOptions) (rec : Message -> M unit) (m : Message) :
  md_IsMessageSet (Descriptor m) = true ->
  (ProtoLegacy = false ->
   marshalFields o rec m = fail no_MessageSets /\
   (isCustomType (md_FullName (Descriptor m)) = false ->
    forall fuel,
      marshalMessage (S fuel) o m
      = Some ([TStartObject; TEndObject], Err no_MessageSets) /\
      (only_space_or_tab (Indent o) = true ->
       MarshalOptions_Marshal (S fuel) o m = Some (Returned None (Some no_MessageSets))))) /\
  (ProtoLegacy = true ->
   marshalFields o rec m
   = (marshalKnownFields o rec m ;; marshalExtensions o rec m)).
Proof.
  intro Hset. split.
  - intro Hlegacy.
    assert (Hfields : forall r, marshalFields o r m = fail no_MessageSets).
    { intro r. unfold marshalFields. rewrite Hlegacy, Hset. reflexivity. }
    split; [apply Hfields|].
    intros Hcustom fuel.
    assert (Hbody : forall o', marshalMessage (S fuel) o' m
                    = Some ([TStartObject; TEndObject], Err no_MessageSets)).
    { intro o'. simpl. unfold marshalMessage_body. rewrite Hcustom.
      unfold marshalFields. rewrite Hlegacy, Hset. reflexivity. }
    split; [apply Hbody|].
    intro Hindent. unfold MarshalOptions_Marshal, NewEncoder. rewrite Hindent, Hbody.
    reflexivity.
  - intro Hlegacy. unfold marshalFields. rewrite Hlegacy. reflexivity.
Qed.

(** ** Scalars *)

(** C6: a value of a 64-bit integer kind is written as a JSON string that
    holds its decimal representation, given that the writer takes strings
    of decimal digits. *)
Theorem int64_written_as_string
  (o : MarshalOptions) (rec : Message -> M unit)
  (val : Value) (fd : FieldDescriptor) (n : Z) :
  is64 (fd_Kind fd) = true ->
  Value_Int val = Some n \/ Value_Uint val = Some n ->
  string_accepted (FormatInt n) = true ->
  marshalSingular o rec val fd = Some ([TString (FormatInt n)], Ok tt).
Proof.
  intros Hkind Hval Hacc.
  assert (Hvalid : IsValid val = true).
  { destruct Hval as [H|H]; destruct val; simpl in H; try discriminate;
      reflexivity. }
  assert (Hstr : Value_String val = FormatInt n).
  { destruct Hval as [H|H]; destruct val; simpl in H; try discriminate;
      inversion H; reflexivity. }
  unfold marshalSingular. rewrite Hvalid. simpl.
  destruct (fd_Kind fd); simpl in Hkind; try discriminate;
    rewrite Hstr; unfold WriteString; rewrite Hacc; reflexivity.
Qed.

(** C7: an enum value is written as its symbolic name, unless
    UseEnumNumbers is set or the number has no name, in which cases the bare
    number is written and no error is returned; a field of the enum
    google.protobuf.NullValue is written as null in either mode. *)
Theorem enum_rendering
  (o : MarshalOptions) (rec : Message -> M unit)
  (val : Value) (fd : FieldDescriptor) (ed : EnumDescriptor) :
  fd_Kind fd = EnumKind ->
  fd_Enum fd = Some ed ->
  (ed_FullName ed = "google.protobuf.NullValue"%string ->
   marshalSingular o rec val fd = Some ([TNull], Ok tt)) /\
  (ed_FullName ed <> "google.protobuf.NullValue"%string ->
   forall n, val = VEnum n ->
     (UseEnumNumbers o = true \/ ByNumber ed n = None ->
      marshalSingular o rec val fd = Some ([TInt n], Ok tt)) /\
     (forall desc,
        UseEnumNumbers o = false ->
        ByNumber ed n = Some desc ->
        string_accepted (ev_Name desc) = true ->
        marshalSingular o rec val fd = Some ([TString (ev_Name desc)], Ok tt))).
Proof.
  intros Hkind Henum. split.
  - intro Hnull. unfold marshalSingular. rewrite Hkind, Henum.
    destruct (IsValid val); simpl; [|reflexivity].
    rewrite Hnull. reflexivity.
  - intros Hnot n ->. apply String.eqb_neq in Hnot.
    unfold marshalSingular. rewrite Hkind, Henum. simpl. rewrite Hnot.
    split.
    + intros [Hnum|Hnone].
      * rewrite Hnum. destruct (ByNumber ed n); reflexivity.
      * rewrite Hnone. reflexivity.
    + intros desc Hnum Hdesc Hacc. rewrite Hdesc, Hnum.
      unfold WriteString. rewrite Hacc. reflexivity.
Qed.

(** ** Field names *)


(** ** Orders and sorted slices *)

Lemma string_compare_refl (s : string) : String.compare s s = Eq.
Proof.
  induction s as [|c s IH]; simpl; [reflexivity|].
  unfold Ascii.compare. rewrite N.compare_refl. assumption.
Qed.

Lemma string_compare_lt_trans (a b c : string) :
  String.compare a b = Lt -> String.compare b c = Lt -> String.compare a c = Lt.
Proof.
  revert b c.
  induction a as [|x a IH]; intros [|y b] [|z c]; simpl; try congruence.
  destruct (Ascii.compare x y) eqn:Hxy; try discriminate.
  - apply Ascii.compare_eq_iff in Hxy. subst y.
    destruct (Ascii.compare x z); try discriminate; auto. apply IH.
  - destruct (Ascii.compare y z) eqn:Hyz; try discriminate.
    + apply Ascii.compare_eq_iff in Hyz. subst z. rewrite Hxy. auto.
    + assert (Hxz : Ascii.compare x z = Lt).
      { unfold Ascii.compare in *. rewrite N.compare_lt_iff in *.
        eapply N.lt_trans; eassumption. }
      rewrite Hxz. auto.
Qed.

Lemma String_ltb_total_order : strict_total_order String.ltb.
Proof.
  unfold strict_total_order, String.ltb. repeat split.
  - intro x. rewrite string_compare_refl. reflexivity.
  - intros x y z Hxy Hyz.
    destruct (String.compare x y) eqn:Exy; try discriminate.
    destruct (String.compare y z) eqn:Eyz; try discriminate.
    rewrite (string_compare_lt_trans x y z Exy Eyz). reflexivity.
  - intros x y Hxy Hyx.
    destruct (String.compare x y) eqn:Exy; try discriminate.
    + apply String.compare_eq_iff. assumption.
    + rewrite String.compare_antisym, Exy in Hyx. discriminate.
Qed.

Lemma Z_ltb_total_order : strict_total_order Z.ltb.
Proof.
  unfold strict_total_order. repeat split; intros; lia.
Qed.

Lemma StronglySorted_weaken {A} (R R' : A -> A -> Prop) (l : list A) :
  StronglySorted R l ->
  (forall a b, In a l -> In b l -> R a b -> R' a b) ->
  StronglySorted R' l.
Proof.
  induction 1 as [|a l Hl IH Ha]; intro Himp; constructor.
  - apply IH. intros x y Hx Hy. apply Himp; right; assumption.
  - rewrite Forall_forall in *. intros b Hb.
    apply Himp; [left; reflexivity|right; assumption|auto].
Qed.

Lemma StronglySorted_map {A B} (f : A -> B) (R : B -> B -> Prop) (l : list A) :
  StronglySorted (fun a b => R (f a) (f b)) l -> StronglySorted R (map f l).
Proof.
  induction 1 as [|a l Hl IH Ha]; simpl; constructor; [assumption|].
  rewrite Forall_forall in *. intros b Hb.
  apply in_map_iff in Hb. destruct Hb as [x [<- Hx]]. auto.
Qed.

Section Keyed.

(** Slices sorted by a key that is totally ordered. *)
Context {A T : Type} (p : A -> T) (lt : T -> T -> bool).
Hypothesis Hlt : strict_total_order lt.

Lemma lt_negatively_transitive (x y z : T) :
  lt x y = false -> lt y z = false -> lt x z = false.
Proof.
  destruct Hlt as [Hirr [Htrans Hconn]]. intros Hxy Hyz.
  destruct (lt x z) eqn:Hxz; [|reflexivity].
  destruct (lt y x) eqn:Hyx.
  - rewrite (Htrans y x z Hyx Hxz) in Hyz. discriminate.
  - rewrite (Hconn x y Hxy Hyx) in Hxz. congruence.
Qed.

Lemma keyed_weak_order (less : A -> A -> bool) (l : list A) :
  (forall a b, In a l -> In b l -> less a b = lt (p a) (p b)) ->
  strict_weak_order_on l less.
Proof.
  intro Hless. destruct Hlt as [Hirr [Htrans Hconn]].
  unfold strict_weak_order_on. repeat split.
  - intros a Ha. rewrite Hless by assumption. apply Hirr.
  - intros a b c Ha Hb Hc. rewrite !Hless by assumption. apply Htrans.
  - intros a b c Ha Hb Hc. rewrite !Hless by assumption.
    apply lt_negatively_transitive.
Qed.

Lemma sort_keyed (less : A -> A -> bool) (l : list A) :
  sort_contract sort_Slice ->
  (forall a b, In a l -> In b l -> less a b = lt (p a) (p b)) ->
  Permutation (sort_Slice A less l) l /\
  StronglySorted (fun a b => lt (p b) (p a) = false) (sort_Slice A less l).
Proof.
  intros Hsort Hless.
  destruct (Hsort A less l) as [Hperm Hsorted]. split; [assumption|].
  apply StronglySorted_weaken with (R := fun a b => less b a = false).
  - apply Hsorted. apply keyed_weak_order. assumption.
  - intros a b Ha Hb. rewrite Hless; [auto| |];
      eapply Permutation_in; eassumption.
Qed.

Lemma StronglySorted_strict (s : list A) :
  NoDup (map p s) ->
  StronglySorted (fun a b => lt (p b) (p a) = false) s ->
  StronglySorted (fun a b => lt (p a) (p b) = true) s.
Proof.
  destruct Hlt as [Hirr [Htrans Hconn]].
  intros Hnodup Hsorted.
  induction Hsorted as [|a s Hs IH Ha]; constructor.
  - apply IH. inversion Hnodup; assumption.
  - rewrite Forall_forall in *. intros b Hb.
    destruct (lt (p a) (p b)) eqn:Hab; [reflexivity|].
    exfalso. inversion Hnodup as [|? ? Hnotin ?]; subst.
    apply Hnotin. rewrite (Hconn (p a) (p b) Hab (Ha b Hb)).
    apply in_map. assumption.
Qed.

Lemma sort_keyed_strict (less : A -> A -> bool) (l : list A) :
  sort_contract sort_Slice ->
  (forall a b, In a l -> In b l -> less a b = lt (p a) (p b)) ->
  NoDup (map p l) ->
  Permutation (sort_Slice A less l) l /\
  StronglySorted (fun a b => lt (p a) (p b) = true) (sort_Slice A less l).
Proof.
  intros Hsort Hless Hnodup.
  destruct (sort_keyed less l Hsort Hless) as [Hperm Hsorted].
  split; [assumption|].
  apply StronglySorted_strict; [|assumption].
  eapply Permutation_NoDup; [|eassumption].
  apply Permutation_map. apply Permutation_sym. assumption.
Qed.

End Keyed.

Lemma NoDup_map_through {A B D} (f : A -> B) (g : A -> D) (l : list A) :
  (forall a b, In a l -> In b l -> g a = g b -> f a = f b) ->
  NoDup (map f l) -> NoDup (map g l).
Proof.
  induction l as [|x l IH]; simpl; intros Hfg Hnodup; [constructor|].
  inversion Hnodup as [|? ? Hnotin Hrest]; subst. constructor.
  - intro Hin. apply in_map_iff in Hin. destruct Hin as [y [Hy Hyin]].
    apply Hnotin. rewrite <- (Hfg y x); auto. apply in_map. assumption.
  - apply IH; auto.
Qed.

(** ** Loops *)

Lemma forM_named_Ok {A} (name : A -> string) (act : A -> M unit)
  (l : list A) (ts : list Token) :
  forM (fun x => WriteName (name x) ;; act x) l = Some (ts, Ok tt) ->
  exists vs,
    Forall2 (fun x v => act x = Some (v, Ok tt)) l vs /\
    Forall (fun x => string_accepted (name x) = true) l /\
    ts = flat_map (fun xv => TName (name (fst xv)) :: snd xv) (combine l vs).
Proof.
  revert ts. induction l as [|x l IH]; simpl; intros ts H.
  - inversion H. exists []. repeat split; constructor.
  - unfold WriteName in H at 1.
    destruct (string_accepted (name x)) eqn:Hacc; simpl in H;
      [|discriminate].
    destruct (act x) as [[v [[]|err|msg]]|] eqn:Hact; simpl in H;
      try discriminate.
    destruct (forM (fun x => WriteName (name x) ;; act x) l)
      as [[ts' [[]|err|msg]]|] eqn:Hrest; simpl in H; try discriminate.
    destruct (IH ts' eq_refl) as [vs [Hvs [Hnames Hts]]].
    exists (v :: vs). repeat split.
    + constructor; assumption.
    + constructor; assumption.
    + inversion H. simpl. rewrite Hts. reflexivity.
Qed.

(** ** Maps *)

Lemma typed_key_comparable (k : Kind) (e : mapEntry) :
  MapKey_has_kind k (key e) = true -> sortMap_comparable k e = true.
Proof.
  unfold sortMap_comparable, sortMap_less.
  destruct k, (key e); simpl; intro H; try discriminate; reflexivity.
Qed.

Lemma sortMap_sorted_by {T} (p : mapEntry -> T) (lt : T -> T -> bool)
  (k : Kind) (l : list mapEntry) :
  sort_contract sort_Slice ->
  strict_total_order lt ->
  (forall a b, In a l -> In b l -> sortMap_lessb k a b = lt (p a) (p b)) ->
  (forall a b, In a l -> In b l -> p a = p b -> key a = key b) ->
  (forall a b, In a l -> In b l -> lt (p a) (p b) = true ->
     key_ascending (key a) (key b)) ->
  NoDup (map key l) ->
  Permutation (sort_Slice mapEntry (sortMap_lessb k) l) l /\
  StronglySorted (fun a b => key_ascending (key a) (key b))
    (sort_Slice mapEntry (sortMap_lessb k) l).
Proof.
  intros Hsort Hlt Hless Hinj Hasc Hnodup.
  destruct (sort_keyed_strict p lt Hlt (sortMap_lessb k) l Hsort Hless)
    as [Hperm Hsorted].
  { eapply NoDup_map_through; [|eassumption]. assumption. }
  split; [assumption|].
  eapply StronglySorted_weaken; [eassumption|].
  intros a b Ha Hb. apply Hasc; eapply Permutation_in; eassumption.
Qed.

Ltac key_cases Htyped a b Ha Hb :=
  let Ta := fresh "Ta" in
  let Tb := fresh "Tb" in
  pose proof (Htyped a Ha) as Ta; pose proof (Htyped b Hb) as Tb;
  unfold sortMap_lessb, sortMap_less, int_of, uint_of, text_of,
    key_ascending in *;
  destruct (key a), (key b); simpl in *; try discriminate.

Lemma FormatBool_ascending (x y : bool) :
  String.ltb (FormatBool x) (FormatBool y) = true -> x = false /\ y = true.
Proof. destruct x, y; simpl; intro H; try discriminate; auto. Qed.

Lemma FormatBool_inj (x y : bool) : FormatBool x = FormatBool y -> x = y.
Proof. destruct x, y; simpl; intro H; try discriminate; reflexivity. Qed.

Lemma sortMap_typed (k : Kind) (l : list mapEntry) :
  sort_contract sort_Slice ->
  Forall (fun e => MapKey_has_kind k (key e) = true) l ->
  NoDup (map key l) ->
  exists sorted,
    sortMap k l = ret sorted /\
    Permutation sorted l /\
    StronglySorted (fun a b => key_ascending (key a) (key b)) sorted.
Proof.
  intros Hsort Htyped Hnodup.
  exists (sort_Slice mapEntry (sortMap_lessb k) l). split.
  - unfold sortMap.
    replace (forallb (sortMap_comparable k) l) with true.
    + rewrite andb_false_r. reflexivity.
    + symmetry. apply forallb_forall. intros e He.
      apply typed_key_comparable. rewrite Forall_forall in Htyped. auto.
  - rewrite Forall_forall in Htyped.
    destruct k;
      first
        [ apply sortMap_sorted_by with (p := int_of) (lt := Z.ltb);
          [ assumption | apply Z_ltb_total_order | .. | assumption ];
          intros a b Ha Hb; key_cases Htyped a b Ha Hb;
          solve [ reflexivity | intros; congruence | intro; lia ]
        | apply sortMap_sorted_by with (p := uint_of) (lt := Z.ltb);
          [ assumption | apply Z_ltb_total_order | .. | assumption ];
          intros a b Ha Hb; key_cases Htyped a b Ha Hb;
          solve [ reflexivity | intros; congruence | intro; lia ]
        | apply sortMap_sorted_by with (p := text_of) (lt := String.ltb);
          [ assumption | apply String_ltb_total_order | .. | assumption ];
          intros a b Ha Hb; key_cases Htyped a b Ha Hb;
          solve [ reflexivity | intros; congruence | intro; assumption
                | apply FormatBool_ascending
                | intro H; f_equal; apply FormatBool_inj; assumption ] ].
Qed.


(** ** Extensions *)

Lemma collect_extensions_In (populated : list (FieldDescriptor * Value))
  (e : entry) :
  In e (collect_extensions populated) <->
  exists fd v,
    In (fd, v) populated /\ fd_IsExtension fd = true /\
    e = mkEntry (extension_key fd) v fd.
Proof.
  unfold collect_extensions. rewrite in_flat_map. split.
  - intros [[fd v] [Hin He]]. simpl in He.
    destruct (fd_IsExtension fd) eqn:Hext; simpl in He; [|contradiction].
    destruct He as [<-|[]]. exists fd, v. auto.
  - intros [fd [v [Hin [Hext ->]]]]. exists (fd, v). split; [assumption|].
    simpl. rewrite Hext. left. reflexivity.
Qed.

(** C5, as amended: the populated extension fields are written after all
    declared fields, in lexicographic order of their fully qualified names
    (the text inside the brackets), each under that name wrapped in
    brackets; for a message-set extension the name of the parent is used. *)
Theorem extensions_after_fields_sorted
  (o : MarshalOptions) (rec : Message -> M unit) (m : Message) :
  sort_contract sort_Slice ->
  exists entries,
    Permutation entries (collect_extensions (Range m)) /\
    (forall fd v,
       In (fd, v) (Range m) -> fd_IsExtension fd = true ->
       In (mkEntry
             (if fd_IsMessageSetExtension fd
              then FullName_Parent (fd_FullName fd) else fd_FullName fd)
             v fd)
          entries) /\
    StronglySorted
      (fun a b => String.ltb (entry_key b) (entry_key a) = false) entries /\
    (negb ProtoLegacy && md_IsMessageSet (Descriptor m) = false ->
     marshalFields o rec m
     = (marshalKnownFields o rec m ;; forM (marshalExtension o rec) entries)) /\
    forall ts,
      marshalFields o rec m = Some (ts, Ok tt) ->
      exists known vs,
        marshalKnownFields o rec m = Some (known, Ok tt) /\
        Forall2
          (fun e v =>
             marshalValue o rec (entry_value e) (entry_desc e) = Some (v, Ok tt))
          entries vs /\
        ts = known
             ++ flat_map
                  (fun ev => TName ("[" ++ entry_key (fst ev) ++ "]")%string :: snd ev)
                  (combine entries vs).
Proof.
  intro Hsort.
  set (entries := sort_Slice entry entry_less (collect_extensions (Range m))).
  destruct (sort_keyed entry_key String.ltb String_ltb_total_order entry_less
              (collect_extensions (Range m)) Hsort)
    as [Hperm Hsorted]; [reflexivity|].
  assert (Heq : negb ProtoLegacy && md_IsMessageSet (Descriptor m) = false ->
                marshalFields o rec m
                = (marshalKnownFields o rec m ;;
                   forM (marshalExtension o rec) entries)).
  { intro Hset. unfold marshalFields. rewrite Hset. reflexivity. }
  exists entries. repeat split; try assumption.
  - intros fd v Hin Hext. eapply Permutation_in.
    + apply Permutation_sym. exact Hperm.
    + apply collect_extensions_In. exists fd, v. auto.
  - intros ts Hts.
    destruct (negb ProtoLegacy && md_IsMessageSet (Descriptor m)) eqn:Hset.
    { unfold marshalFields in Hts. rewrite Hset in Hts. discriminate. }
    rewrite (Heq eq_refl) in Hts.
    destruct (marshalKnownFields o rec m) as [[known [[]|err|msg]]|];
      simpl in Hts; try discriminate.
    destruct (forM (marshalExtension o rec) entries)
      as [[ts' r]|] eqn:Hloop; [|discriminate].
    inversion Hts; subst.
    destruct (forM_named_Ok (fun e => ("[" ++ entry_key e ++ "]")%string)
                (fun e => marshalValue o rec (entry_value e) (entry_desc e))
                entries ts' Hloop)
      as [vs [Hvs [_ Hts']]].
    exists known, vs. repeat split; [assumption|]. rewrite Hts'. reflexivity.
Qed.

(** ** Unpopulated fields *)

Lemma sort_Slice_nil (A : Type) (less : A -> A -> bool) :
  sort_contract sort_Slice -> sort_Slice A less [] = [].
Proof.
  intro Hsort. destruct (Hsort A less []) as [Hperm _].
  apply Permutation_nil. apply Permutation_sym. assumption.
Qed.


(** ** Independence of storage order *)

Lemma Forall2_In_l {A B} (R : A -> B -> Prop) (l1 : list A) (l2 : list B) (a : A) :
  Forall2 R l1 l2 -> In a l1 -> exists b, In b l2 /\ R a b.
Proof.
  induction 1 as [|x y l1 l2 Hxy Hrest IH]; simpl; [tauto|].
  intros [->|Hin].
  - exists y. auto.
  - destruct (IH Hin) as [b [Hb Hab]]. exists b. auto.
Qed.

Lemma Forall2_In_r {A B} (R : A -> B -> Prop) (l1 : list A) (l2 : list B) (b : B) :
  Forall2 R l1 l2 -> In b l2 -> exists a, In a l1 /\ R a b.
Proof.
  induction 1 as [|x y l1 l2 Hxy Hrest IH]; simpl; [tauto|].
  intros [->|Hin].
  - exists x. auto.
  - destruct (IH Hin) as [a [Ha Hab]]. exists a. auto.
Qed.

Lemma Forall2_map_eq {A B} (R : A -> A -> Prop) (f : A -> B) (l1 l2 : list A) :
  (forall a b, R a b -> f a = f b) -> Forall2 R l1 l2 -> map f l1 = map f l2.
Proof.
  intro Hf. induction 1 as [|x y l1 l2 Hxy Hrest IH]; simpl; [reflexivity|].
  rewrite (Hf x y Hxy), IH. reflexivity.
Qed.

Lemma perm_equiv_length {A} (R : A -> A -> Prop) (l1 l2 : list A) :
  perm_equiv R l1 l2 -> List.length l1 = List.length l2.
Proof.
  intros [l' [Hperm Hall]].
  rewrite (Permutation_length Hperm). eapply Forall2_length. eassumption.
Qed.

Lemma perm_equiv_Permutation {A} (R : A -> A -> Prop) (l1 l2 s1 s2 : list A) :
  Permutation s1 l1 -> Permutation s2 l2 ->
  perm_equiv R l1 l2 -> perm_equiv R s1 s2.
Proof.
  intros H1 H2 [l' [Hperm Hall]].
  apply Forall2_flip in Hall.
  destruct (Permutation_Forall2 (Permutation_sym H2) Hall)
    as [l'' [Hperm' Hall']].
  exists l''. split.
  - eapply Permutation_trans; [exact H1|].
    eapply Permutation_trans; [exact Hperm|exact Hperm'].
  - apply Forall2_flip in Hall'. exact Hall'.
Qed.

Lemma perm_equiv_map {A B} (R : A -> A -> Prop) (R' : B -> B -> Prop)
  (f : A -> B) (l1 l2 : list A) :
  (forall a b, R a b -> R' (f a) (f b)) ->
  perm_equiv R l1 l2 -> perm_equiv R' (map f l1) (map f l2).
Proof.
  intros Hf [l' [Hperm Hall]]. exists (map f l'). split.
  - apply Permutation_map. assumption.
  - clear Hperm. induction Hall; simpl; constructor; auto.
Qed.

Lemma forallb_perm_equiv {A} (R : A -> A -> Prop) (f : A -> bool)
  (l1 l2 : list A) :
  (forall a b, R a b -> f a = f b) ->
  perm_equiv R l1 l2 -> forallb f l1 = forallb f l2.
Proof.
  intros Hf [l' [Hperm Hall]].
  apply eq_iff_eq_true. rewrite !forallb_forall. split; intros H x Hx.
  - destruct (Forall2_In_r R l' l2 x Hall Hx) as [a [Ha Hax]].
    rewrite <- (Hf a x Hax). apply H.
    eapply Permutation_in; [apply Permutation_sym; exact Hperm|exact Ha].
  - assert (Hx' : In x l') by (eapply Permutation_in; eassumption).
    destruct (Forall2_In_l R l' l2 x Hall Hx') as [b [Hb Hxb]].
    rewrite (Hf x b Hxb). apply H. exact Hb.
Qed.

Lemma forM_Forall2 {A B} (f : A -> M unit) (g : B -> M unit)
  (l1 : list A) (l2 : list B) :
  Forall2 (fun a b => f a = g b) l1 l2 -> forM f l1 = forM g l2.
Proof.
  induction 1 as [|x y l1 l2 Hxy Hrest IH]; simpl; [reflexivity|].
  rewrite Hxy, IH. reflexivity.
Qed.

Lemma forM_ext_In {A} (f g : A -> M unit) (l : list A) :
  (forall x, In x l -> f x = g x) -> forM f l = forM g l.
Proof.
  induction l as [|x l IH]; simpl; intro H; [reflexivity|].
  rewrite (H x), IH; auto.
Qed.

Lemma sort_Slice_small (A : Type) (less : A -> A -> bool) (l : list A) :
  sort_contract sort_Slice ->
  (List.length l <= 1)%nat -> sort_Slice A less l = l.
Proof.
  intros Hsort Hlen. destruct (Hsort A less l) as [Hperm _].
  destruct l as [|x [|y l]]; simpl in Hlen; [| |lia].
  - apply Permutation_nil. apply Permutation_sym. assumption.
  - apply Permutation_length_1_inv. apply Permutation_sym. assumption.
Qed.

Section KeyedEquiv.

Context {A T : Type} (p : A -> T) (lt : T -> T -> bool).
Hypothesis Hlt : strict_total_order lt.

Lemma sorted_keys_unique (ks1 ks2 : list T) :
  StronglySorted (fun x y => lt x y = true) ks1 ->
  StronglySorted (fun x y => lt x y = true) ks2 ->
  Permutation ks1 ks2 -> ks1 = ks2.
Proof.
  destruct Hlt as [Hirr [Htrans Hconn]].
  intros H1. revert ks2.
  induction H1 as [|x t1 Ht1 IH Hx]; intros ks2 H2 Hperm.
  - symmetry. apply Permutation_nil. assumption.
  - destruct H2 as [|y t2 Ht2 Hy].
    + apply Permutation_sym, Permutation_nil in Hperm. discriminate.
    + rewrite Forall_forall in Hx, Hy.
      assert (Hxy : x = y).
      { assert (Hin1 : In x (y :: t2))
          by (eapply Permutation_in; [exact Hperm|left; reflexivity]).
        assert (Hin2 : In y (x :: t1))
          by (eapply Permutation_in;
              [apply Permutation_sym; exact Hperm|left; reflexivity]).
        destruct Hin1 as [Heq|Hin1]; [auto|].
        destruct Hin2 as [Heq|Hin2]; [auto|].
        exfalso. specialize (Hy x Hin1). specialize (Hx y Hin2).
        pose proof (Htrans x y x Hx Hy) as Hxx.
        rewrite Hirr in Hxx. discriminate. }
      subst y. f_equal. apply IH; [assumption|].
      eapply Permutation_cons_inv. exact Hperm.
Qed.

Lemma aligned_by_key (R : A -> A -> Prop) (s1 s2 : list A) :
  (forall a b, R a b -> p a = p b) ->
  NoDup (map p s1) ->
  perm_equiv R s1 s2 ->
  map p s1 = map p s2 ->
  Forall2 R s1 s2.
Proof.
  intro HR. revert s2.
  induction s1 as [|a s1 IH]; intros s2 Hnodup Hequiv Hkeys.
  - destruct s2; [constructor|discriminate].
  - destruct s2 as [|b s2]; [discriminate|]. simpl in Hkeys.
    injection Hkeys as Hab Hrest.
    destruct Hequiv as [l' [Hperm Hall]].
    inversion Hall as [|a' b' t' s2' Ha'b Hall' E1 E2]; subst.
    inversion Hnodup as [|? ? Hnotin Hnodup']; subst.
    assert (Ha' : a' = a).
    { assert (Hin : In a' (a :: s1)).
      { eapply Permutation_in;
          [apply Permutation_sym; exact Hperm|left; reflexivity]. }
      destruct Hin as [Heq|Hin]; [auto|].
      exfalso. apply Hnotin. rewrite Hab, <- (HR a' b Ha'b).
      apply in_map. assumption. }
    subst a'. constructor; [assumption|].
    apply IH; [assumption| |assumption].
    exists t'. split; [|assumption].
    eapply Permutation_cons_inv. exact Hperm.
Qed.

Lemma sort_respects_perm_equiv (R : A -> A -> Prop) (less : A -> A -> bool)
  (l1 l2 : list A) :
  sort_contract sort_Slice ->
  (forall a b, In a l1 -> In b l1 -> less a b = lt (p a) (p b)) ->
  (forall a b, In a l2 -> In b l2 -> less a b = lt (p a) (p b)) ->
  (forall a b, R a b -> p a = p b) ->
  NoDup (map p l1) ->
  perm_equiv R l1 l2 ->
  Forall2 R (sort_Slice A less l1) (sort_Slice A less l2).
Proof.
  intros Hsort Hless1 Hless2 HR Hnodup1 Hequiv.
  assert (Hkeys : Permutation (map p l1) (map p l2)).
  { destruct Hequiv as [l' [Hperm Hall]].
    rewrite <- (Forall2_map_eq R p l' l2 HR Hall).
    apply Permutation_map. assumption. }
  assert (Hnodup2 : NoDup (map p l2))
    by (eapply Permutation_NoDup; eassumption).
  destruct (sort_keyed_strict p lt Hlt less l1 Hsort Hless1 Hnodup1)
    as [Hperm1 Hsorted1].
  destruct (sort_keyed_strict p lt Hlt less l2 Hsort Hless2 Hnodup2)
    as [Hperm2 Hsorted2].
  apply aligned_by_key; [assumption| | |].
  - eapply Permutation_NoDup; [|exact Hnodup1].
    apply Permutation_map. apply Permutation_sym. assumption.
  - eapply perm_equiv_Permutation; eassumption.
  - apply sorted_keys_unique.
    + apply StronglySorted_map with (R := fun x y => lt x y = true).
      assumption.
    + apply StronglySorted_map with (R := fun x y => lt x y = true).
      assumption.
    + eapply Permutation_trans; [apply Permutation_map; exact Hperm1|].
      eapply Permutation_trans; [exact Hkeys|].
      apply Permutation_map. apply Permutation_sym. assumption.
Qed.

End KeyedEquiv.

Section Determinism.

(** The hook and the formatter see the content of a value only. *)
Hypothesis Hsort : sort_contract sort_Slice.
Hypothesis Hhook : forall o m1 m2,
  message_equiv m1 m2 -> marshalCustomType o m1 = marshalCustomType o m2.
Hypothesis Hsprint : forall v1 v2,
  value_equiv v1 v2 -> fmt_Sprint v1 = fmt_Sprint v2.

Section OneLevel.

Variable o : MarshalOptions.
Variable rec : Message -> M unit.
Hypothesis Hrec : forall m1 m2, message_equiv m1 m2 -> rec m1 = rec m2.

Lemma scalar_views (v1 v2 : Value) :
  value_equiv v1 v2 ->
  IsValid v1 = IsValid v2 /\
  Value_Bool v1 = Value_Bool v2 /\
  Value_Int v1 = Value_Int v2 /\
  Value_Uint v1 = Value_Uint v2 /\
  Value_Float v1 = Value_Float v2 /\
  Value_Bytes v1 = Value_Bytes v2 /\
  Value_Enum v1 = Value_Enum v2 /\
  Value_String v1 = Value_String v2.
Proof.
  intro H. pose proof (Hsprint v1 v2 H) as Hs.
  inversion H; subst; simpl; repeat split; auto.
Qed.

Lemma message_view (v1 v2 : Value) :
  value_equiv v1 v2 ->
  (m <- access (Value_Message v1) ;; rec m)
  = (m <- access (Value_Message v2) ;; rec m).
Proof.
  intro H. inversion H; subst; try reflexivity.
  unfold Value_Message, Value_List, Value_Map, access.
    rewrite !bind_ret_l. apply Hrec. assumption.
Qed.

Lemma marshalSingular_equiv (v1 v2 : Value) (fd : FieldDescriptor) :
  value_equiv v1 v2 ->
  marshalSingular o rec v1 fd = marshalSingular o rec v2 fd.
Proof.
  intro H.
  destruct (scalar_views v1 v2 H)
    as [HV [HB [HI [HU [HF [HY [HE HS]]]]]]].
  pose proof (message_view v1 v2 H) as HM.
  unfold marshalSingular.
  rewrite HV, HB, HI, HU, HF, HY, HE, HS.
  destruct (IsValid v2); simpl; [|reflexivity].
  destruct (fd_Kind fd); try reflexivity; exact HM.
Qed.

Lemma marshalMapValue_equiv (v1 v2 : Value) (fd : FieldDescriptor) :
  value_equiv v1 v2 ->
  marshalMapValue o rec fd v1 = marshalMapValue o rec fd v2.
Proof.
  intro H. unfold marshalMapValue. destruct (fd_MapValue fd).
  - apply marshalSingular_equiv. assumption.
  - destruct (scalar_views v1 v2 H) as [HV _]. rewrite HV. reflexivity.
Qed.

Lemma marshalList_equiv (l1 l2 : list Value) (fd : FieldDescriptor) :
  Forall2 value_equiv l1 l2 ->
  marshalList o rec l1 fd = marshalList o rec l2 fd.
Proof.
  intro H. unfold marshalList.
  rewrite (forM_Forall2 (fun item => marshalSingular o rec item fd)
             (fun item => marshalSingular o rec item fd) l1 l2);
    [reflexivity|].
  eapply Forall2_impl; [|exact H].
  intros a b Hab. apply marshalSingular_equiv. assumption.
Qed.

(** The key kinds fall in three families, as the comparison of sortMap
    reads the keys. *)
Lemma sortMap_lessb_family (k : Kind) :
  (forall a b,
     sortMap_comparable k a = true -> sortMap_comparable k b = true ->
     sortMap_lessb k a b = Z.ltb (int_of a) (int_of b) /\
     (int_of a = int_of b -> text_of a = text_of b)) \/
  (forall a b,
     sortMap_comparable k a = true -> sortMap_comparable k b = true ->
     sortMap_lessb k a b = Z.ltb (uint_of a) (uint_of b) /\
     (uint_of a = uint_of b -> text_of a = text_of b)) \/
  (forall a b,
     sortMap_lessb k a b = String.ltb (text_of a) (text_of b)).
Proof.
  destruct k;
    first
      [ right; right; intros a b; reflexivity
      | left; intros a b;
        unfold sortMap_comparable, sortMap_lessb, sortMap_less,
          int_of, text_of;
        destruct (key a), (key b); simpl; intros Ha Hb;
        try discriminate;
        (split; [reflexivity|intros ->; reflexivity])
      | right; left; intros a b;
        unfold sortMap_comparable, sortMap_lessb, sortMap_less,
          uint_of, text_of;
        destruct (key a), (key b); simpl; intros Ha Hb;
        try discriminate;
        (split; [reflexivity|intros ->; reflexivity]) ].
Qed.

Lemma sortMap_equiv (k : Kind) (l1 l2 : list mapEntry) :
  NoDup (map text_of l1) ->
  perm_equiv mapEntry_equiv l1 l2 ->
  (sortMap k l1 = panic "value type mismatch" /\
   sortMap k l2 = panic "value type mismatch") \/
  exists s1 s2,
    sortMap k l1 = ret s1 /\ sortMap k l2 = ret s2 /\
    Forall2 mapEntry_equiv s1 s2.
Proof.
  intros Hnodup Hequiv.
  assert (Hcmp : forall a b, mapEntry_equiv a b ->
                 sortMap_comparable k a = sortMap_comparable k b).
  { intros a b [Hkey _]. unfold sortMap_comparable, sortMap_less.
    rewrite Hkey. reflexivity. }
  assert (Htext : forall a b, mapEntry_equiv a b -> text_of a = text_of b).
  { intros a b [Hkey _]. unfold text_of. rewrite Hkey. reflexivity. }
  pose proof (perm_equiv_length _ _ _ Hequiv) as Hlen.
  pose proof (forallb_perm_equiv _ (sortMap_comparable k) _ _ Hcmp Hequiv)
    as Hall.
  unfold sortMap. rewrite <- Hlen, <- Hall.
  destruct (2 <=? Z.of_nat (List.length l1)) eqn:Htwo; simpl.
  - destruct (forallb (sortMap_comparable k) l1) eqn:Hcomparable; simpl;
      [|left; split; reflexivity].
    right. do 2 eexists. split; [reflexivity|]. split; [reflexivity|].
    assert (Hc1 : forall a, In a l1 -> sortMap_comparable k a = true)
      by (apply forallb_forall; assumption).
    assert (Hc2 : forall a, In a l2 -> sortMap_comparable k a = true)
      by (apply forallb_forall; congruence).
    destruct (sortMap_lessb_family k) as [Hfam|[Hfam|Hfam]].
    + apply sort_respects_perm_equiv with (p := int_of) (lt := Z.ltb);
        auto using Z_ltb_total_order.
      * intros a b Ha Hb. apply Hfam; auto.
      * intros a b Ha Hb. apply Hfam; auto.
      * intros a b [Hkey _]. unfold int_of. rewrite Hkey. reflexivity.
      * eapply NoDup_map_through; [|exact Hnodup].
        intros a b Ha Hb. apply Hfam; auto.
    + apply sort_respects_perm_equiv with (p := uint_of) (lt := Z.ltb);
        auto using Z_ltb_total_order.
      * intros a b Ha Hb. apply Hfam; auto.
      * intros a b Ha Hb. apply Hfam; auto.
      * intros a b [Hkey _]. unfold uint_of. rewrite Hkey. reflexivity.
      * eapply NoDup_map_through; [|exact Hnodup].
        intros a b Ha Hb. apply Hfam; auto.
    + apply sort_respects_perm_equiv with (p := text_of) (lt := String.ltb);
        auto using String_ltb_total_order.
  - right. do 2 eexists. split; [reflexivity|]. split; [reflexivity|].
    apply Z.leb_gt in Htwo.
    rewrite !sort_Slice_small by (assumption || lia).
    destruct Hequiv as [l' [Hperm Hall']].
    destruct l1 as [|x [|y l1]]; simpl in Htwo; [| |lia].
    + apply Permutation_nil in Hperm. subst l'. assumption.
    + apply Permutation_length_1_inv in Hperm. subst l'. assumption.
Qed.

Lemma marshalMap_equiv (es1 es1' es2 : list (MapKey * Value))
  (fd : FieldDescriptor) :
  NoDup (map (fun kv => MapKey_String (fst kv)) es1) ->
  Permutation es1 es1' ->
  Forall2 (fun a b => fst a = fst b /\ value_equiv (snd a) (snd b)) es1' es2 ->
  marshalMap o rec es1 fd = marshalMap o rec es2 fd.
Proof.
  intros Hnodup Hperm Hall. unfold marshalMap.
  destruct (fd_MapKey fd) as [kfd|]; [|reflexivity].
  unfold deref. rewrite !bind_ret_l.
  destruct (sortMap_equiv (fd_Kind kfd) (map_entries es1) (map_entries es2))
    as [[-> ->]|[s1 [s2 [-> [-> Hsorted]]]]].
  - unfold map_entries, text_of. rewrite map_map. exact Hnodup.
  - unfold map_entries.
    apply perm_equiv_map
      with (R := fun a b => fst a = fst b /\ value_equiv (snd a) (snd b)).
    + intros a b Hab. exact Hab.
    + exists es1'. split; assumption.
  - reflexivity.
  - rewrite !bind_ret_l.
    rewrite (forM_Forall2 (marshalMapEntry o rec fd) (marshalMapEntry o rec fd)
               s1 s2); [reflexivity|].
    eapply Forall2_impl; [|exact Hsorted].
    intros a b [Hkey Hval]. unfold marshalMapEntry.
    rewrite Hkey, (marshalMapValue_equiv _ _ fd Hval). reflexivity.
Qed.

Lemma marshalValue_equiv (v1 v2 : Value) (fd : FieldDescriptor) :
  value_equiv v1 v2 ->
  marshalValue o rec v1 fd = marshalValue o rec v2 fd.
Proof.
  intro H. unfold marshalValue.
  destruct (fd_IsList fd); [|destruct (fd_IsMap fd)].
  - inversion H; subst; try reflexivity.
    unfold Value_Message, Value_List, Value_Map, access.
    rewrite !bind_ret_l.
    apply marshalList_equiv. assumption.
  - inversion H; subst; try reflexivity.
    unfold Value_Message, Value_List, Value_Map, access.
    rewrite !bind_ret_l.
    eapply marshalMap_equiv; eassumption.
  - apply marshalSingular_equiv. assumption.
Qed.

Lemma collect_extensions_equiv (r1 r2 : list (FieldDescriptor * Value)) :
  perm_equiv populated_equiv r1 r2 ->
  perm_equiv entry_equiv (collect_extensions r1) (collect_extensions r2).
Proof.
  intros [r' [Hperm Hall]]. exists (collect_extensions r'). split.
  - unfold collect_extensions. apply Permutation_flat_map. assumption.
  - clear Hperm.
    induction Hall as [|[fd1 v1] [fd2 v2] r' r2 [Hfd Hv] Hrest IH];
      [constructor|].
    simpl in Hfd, Hv. subst fd2. unfold collect_extensions. simpl.
    destruct (fd_IsExtension fd1); simpl; [|exact IH].
    constructor; [|exact IH]. repeat split; assumption.
Qed.

Lemma marshalExtensions_equiv (m1 m2 : Message) :
  NoDup (map entry_key (collect_extensions (Range m1))) ->
  perm_equiv populated_equiv (Range m1) (Range m2) ->
  marshalExtensions o rec m1 = marshalExtensions o rec m2.
Proof.
  intros Hnodup Hequiv. unfold marshalExtensions.
  apply forM_Forall2.
  eapply Forall2_impl;
    [|apply sort_respects_perm_equiv
        with (p := entry_key) (lt := String.ltb) (R := entry_equiv);
      auto using String_ltb_total_order].
  - intros a b [Hkey [Hdesc Hval]]. unfold marshalExtension.
    rewrite Hkey, Hdesc, (marshalValue_equiv _ _ (entry_desc b) Hval).
    reflexivity.
  - intros a b [Hkey _]. assumption.
  - apply collect_extensions_equiv. assumption.
Qed.

Lemma marshalField_equiv (m1 m2 : Message) (fd : FieldDescriptor) :
  Has m1 fd = Has m2 fd ->
  value_equiv (Get m1 fd) (Get m2 fd) ->
  marshalField o rec m1 fd = marshalField o rec m2 fd.
Proof.
  intros Hhas Hget. unfold marshalField, field_value. rewrite Hhas.
  destruct (negb (Has m2 fd));
    [destruct (negb (EmitUnpopulated o) || isSome (fd_ContainingOneof fd));
     [reflexivity|];
     destruct (isProto2Scalar fd || isSingularMessage fd); [reflexivity|]|];
    rewrite (marshalValue_equiv _ _ fd Hget); reflexivity.
Qed.

Lemma marshalMessage_body_equiv (m1 m2 : Message) :
  message_equiv m1 m2 ->
  marshalMessage_body o rec m1 = marshalMessage_body o rec m2.
Proof.
  intro H. pose proof (Hhook o m1 m2 H) as Hcustom.
  inversion H as [d has1 has2 get1 get2 r1 r1' r2 Hhas Hget Hnodup Hperm Hall];
    subst.
  unfold marshalMessage_body. simpl. rewrite Hcustom.
  destruct (isCustomType (md_FullName d)); [reflexivity|].
  unfold marshalFields. simpl.
  destruct (negb ProtoLegacy && md_IsMessageSet d); [reflexivity|].
  assert (Hknown : marshalKnownFields o rec (mkMessage d has1 get1 r1)
                   = marshalKnownFields o rec (mkMessage d has2 get2 r2)).
  { unfold marshalKnownFields. simpl. apply forM_ext_In. intros fd Hfd.
    apply marshalField_equiv; simpl; auto. }
  assert (Hext : marshalExtensions o rec (mkMessage d has1 get1 r1)
                 = marshalExtensions o rec (mkMessage d has2 get2 r2)).
  { apply marshalExtensions_equiv; simpl; [assumption|].
    exists r1'. split; assumption. }
  rewrite Hknown, Hext. reflexivity.
Qed.

End OneLevel.

Lemma marshalMessage_equiv (fuel : nat) (o : MarshalOptions) (m1 m2 : Message) :
  message_equiv m1 m2 ->
  marshalMessage fuel o m1 = marshalMessage fuel o m2.
Proof.
  revert m1 m2. induction fuel as [|fuel IH]; intros m1 m2 H; simpl.
  - reflexivity.
  - apply marshalMessage_body_equiv; assumption.
Qed.

End Determinism.

(** ** Enough fuel

    The recursion budget of the model is never the reason for a missing
    result once it exceeds the nesting depth of the message. *)

Lemma bind_not_None {A B} (m : M A) (f : A -> M B) :
  m <> None -> (forall a, f a <> None) -> bind m f <> None.
Proof.
  intros Hm Hf. unfold bind.
  destruct m as [[ts [a|err|msg]]|]; try discriminate; [|congruence].
  specialize (Hf a). destruct (f a) as [[ts' r]|]; [discriminate|congruence].
Qed.

Lemma defer_not_None (d : list Token) (body : M unit) :
  body <> None -> defer d body <> None.
Proof.
  unfold defer. destruct body as [[ts r]|]; [discriminate|congruence].
Qed.

Lemma forM_not_None {A} (f : A -> M unit) (l : list A) :
  (forall x, In x l -> f x <> None) -> forM f l <> None.
Proof.
  induction l as [|x l IH]; simpl; intro H; [discriminate|].
  apply bind_not_None; [apply H; auto|]. intros _. apply IH. auto.
Qed.

Lemma access_not_None {A} (x : option A) : access x <> None.
Proof. destruct x; discriminate. Qed.

Lemma deref_not_None {A} (x : option A) : deref x <> None.
Proof. destruct x; discriminate. Qed.

Lemma WriteString_not_None (s : string) : WriteString s <> None.
Proof. unfold WriteString. destruct (string_accepted s); discriminate. Qed.

Lemma WriteName_not_None (s : string) : WriteName s <> None.
Proof. unfold WriteName. destruct (string_accepted s); discriminate. Qed.

Lemma list_max_In {A} (f : A -> nat) (l : list A) (x : A) (n : nat) :
  (list_max (map f l) <= n)%nat -> In x l -> (f x <= n)%nat.
Proof.
  intros Hmax Hin. apply list_max_le in Hmax.
  rewrite Forall_forall in Hmax. apply Hmax. apply in_map. assumption.
Qed.

Section Fuel.

Hypothesis Hsort : sort_contract sort_Slice.

Variable o : MarshalOptions.
Variable rec : Message -> M unit.
Variable n : nat.
Hypothesis Hrec : forall m, (depth m < n)%nat -> rec m <> None.

Lemma marshalSingular_not_None (val : Value) (fd : FieldDescriptor) :
  (depth_value val <= n)%nat -> marshalSingular o rec val fd <> None.
Proof.
  intro Hdepth. unfold marshalSingular.
  destruct (negb (IsValid val)); [discriminate|].
  destruct (fd_Kind fd);
    try (apply bind_not_None; [apply access_not_None|intro; discriminate]);
    try apply WriteString_not_None;
    try discriminate.
  - apply bind_not_None; [apply deref_not_None|]. intro ed.
    destruct (ed_FullName ed =? "google.protobuf.NullValue")%string;
      [discriminate|].
    apply bind_not_None; [apply access_not_None|]. intro x.
    destruct (ByNumber ed x); [|discriminate].
    destruct (UseEnumNumbers o); [discriminate|apply WriteString_not_None].
  - unfold ignore_error, WriteString.
    destruct (string_accepted (Value_String val)); discriminate.
  - unfold ignore_error, WriteString.
    destruct (string_accepted (Value_String val)); discriminate.
  - unfold ignore_error, WriteString.
    destruct (string_accepted (Value_String val)); discriminate.
  - unfold ignore_error, WriteString.
    destruct (string_accepted (Value_String val)); discriminate.
  - unfold ignore_error, WriteString.
    destruct (string_accepted (Value_String val)); discriminate.
  - apply bind_not_None; [apply access_not_None|]. intro bs.
    apply WriteString_not_None.
  - destruct val; try discriminate. simpl in Hdepth.
    unfold Value_Message, access. rewrite bind_ret_l. apply Hrec. lia.
  - destruct val; try discriminate. simpl in Hdepth.
    unfold Value_Message, access. rewrite bind_ret_l. apply Hrec. lia.
Qed.

Lemma marshalValue_not_None (val : Value) (fd : FieldDescriptor) :
  (depth_value val <= n)%nat -> marshalValue o rec val fd <> None.
Proof.
  intro Hdepth. unfold marshalValue.
  destruct (fd_IsList fd); [|destruct (fd_IsMap fd)].
  - destruct val; try discriminate. simpl in Hdepth.
    unfold Value_List, access. rewrite bind_ret_l. unfold marshalList.
    apply bind_not_None; [discriminate|]. intros _.
    apply defer_not_None, forM_not_None. intros item Hitem.
    apply marshalSingular_not_None.
    exact (list_max_In depth_value l item n Hdepth Hitem).
  - destruct val; try discriminate. simpl in Hdepth.
    unfold Value_Map, access. rewrite bind_ret_l. unfold marshalMap.
    apply bind_not_None; [discriminate|]. intros _. apply defer_not_None.
    apply bind_not_None; [apply deref_not_None|]. intro kfd.
    unfold sortMap.
    destruct ((2 <=? Z.of_nat (List.length (map_entries entries)))
              && negb (forallb (sortMap_comparable (fd_Kind kfd))
                         (map_entries entries)));
      [discriminate|].
    rewrite bind_ret_l. apply forM_not_None. intros e He.
    unfold marshalMapEntry.
    apply bind_not_None; [apply WriteName_not_None|]. intros _.
    unfold marshalMapValue.
    destruct (fd_MapValue fd);
      [|destruct (negb (IsValid (value e))); discriminate].
    apply marshalSingular_not_None.
    destruct (Hsort mapEntry (sortMap_lessb (fd_Kind kfd)) (map_entries entries))
      as [Hperm _].
    apply (Permutation_in _ Hperm) in He.
    unfold map_entries in He. apply in_map_iff in He.
    destruct He as [kv [<- Hkv]]. simpl.
    exact (list_max_In (fun kv => depth_value (snd kv)) entries kv n
             Hdepth Hkv).
  - apply marshalSingular_not_None. assumption.
Qed.

Lemma marshalMessage_body_not_None (m : Message) :
  (depth m <= n)%nat -> marshalMessage_body o rec m <> None.
Proof.
  intro Hdepth. unfold marshalMessage_body.
  destruct (isCustomType (md_FullName (Descriptor m))); [discriminate|].
  apply bind_not_None; [discriminate|]. intros _. apply defer_not_None.
  unfold marshalFields.
  destruct (negb ProtoLegacy && md_IsMessageSet (Descriptor m));
    [discriminate|].
  destruct m as [d has get range]. simpl in Hdepth.
  apply bind_not_None.
  - unfold marshalKnownFields. apply forM_not_None. intros fd Hfd.
    unfold marshalField.
    destruct (field_value o (mkMessage d has get range) fd) as [val|] eqn:Hval;
      [|discriminate].
    apply bind_not_None.
    { unfold field_name. destruct (UseProtoNames o); [|discriminate].
      destruct (fd_Kind fd); try discriminate. apply deref_not_None. }
    intro name. apply bind_not_None; [apply WriteName_not_None|]. intros _.
    apply marshalValue_not_None.
    assert (Hget : (depth_value (get fd) <= n)%nat).
    { apply (list_max_In (fun fd => depth_value (get fd)) (md_Fields d) fd n);
        [lia|assumption]. }
    unfold field_value in Hval. simpl in Hval.
    destruct (negb (has fd));
      [destruct (negb (EmitUnpopulated o) || isSome (fd_ContainingOneof fd));
       [discriminate|];
       destruct (isProto2Scalar fd || isSingularMessage fd)|];
      inversion Hval; subst; simpl; try assumption; lia.
  - intros _. unfold marshalExtensions. apply forM_not_None. intros e He.
    unfold marshalExtension.
    apply bind_not_None; [apply WriteName_not_None|]. intros _.
    apply marshalValue_not_None.
    destruct (Hsort entry entry_less
                (collect_extensions (Range (mkMessage d has get range))))
      as [Hperm _].
    apply (Permutation_in _ Hperm) in He.
    apply collect_extensions_In in He.
    destruct He as [fd [v [Hin [_ ->]]]]. simpl in *.
    apply (list_max_In (fun p => depth_value (snd p)) range (fd, v) n);
      [lia|assumption].
Qed.

End Fuel.

(** With a recursion budget above its nesting depth, marshaling a message
    comes to an end: a return, an error or a panic. *)
Lemma marshalMessage_enough_fuel (fuel : nat) (o : MarshalOptions) (m : Message) :
  sort_contract sort_Slice ->
  (depth m < fuel)%nat -> marshalMessage fuel o m <> None.
Proof.
  intro Hsort. revert m.
  induction fuel as [|fuel IH]; intros m Hdepth; [lia|]. simpl.
  apply marshalMessage_body_not_None with (n := fuel);
    [assumption|exact IH|lia].
Qed.

(** C2: two messages with the same content, which differ at most in the
    order in which their maps hand out entries and in which they hand out
    populated fields, are marshaled to the same tokens and the same bytes
    under the same options, and a recursion budget above the nesting depth
    is enough to get them. *)
Theorem encoding_independent_of_storage_order
  (fuel : nat) (o : MarshalOptions) (m1 m2 : Message) :
  sort_contract sort_Slice ->
  (forall o m1 m2,
     message_equiv m1 m2 -> marshalCustomType o m1 = marshalCustomType o m2) ->
  (forall v1 v2, value_equiv v1 v2 -> fmt_Sprint v1 = fmt_Sprint v2) ->
  message_equiv m1 m2 ->
  marshalMessage fuel o m1 = marshalMessage fuel o m2 /\
  option_map returned_bytes (MarshalOptions_Marshal fuel o m1)
  = option_map returned_bytes (MarshalOptions_Marshal fuel o m2) /\
  ((depth m1 < fuel)%nat -> marshalMessage fuel o m1 <> None).
Proof.
  intros Hsort Hhook Hsprint H. split; [|split].
  - apply marshalMessage_equiv; assumption.
  - unfold MarshalOptions_Marshal. destruct (NewEncoder (Indent o)); [|reflexivity].
    rewrite (marshalMessage_equiv Hsort Hhook Hsprint fuel
               (default_Resolver o) m1 m2 H).
    destruct (marshalMessage fuel (default_Resolver o) m2)
      as [[ts [[]|err|msg]]|]; try reflexivity.
    destruct (AllowPartial (default_Resolver o)); reflexivity.
  - apply marshalMessage_enough_fuel. assumption.
Qed.

(** ** Brackets and the outcomes of a run *)

Lemma open_containers_app (s : list Container) (a b : list Token) :
  open_containers s (a ++ b)
  = match open_containers s a with
    | Some s' => open_containers s' b
    | None => None
    end.
Proof.
  revert s. induction a as [|t a IH]; intro s; simpl; [reflexivity|].
  destruct t; try apply IH; destruct s as [|[] s]; try reflexivity; apply IH.
Qed.

Lemma open_containers_below (s s' r : list Container) (ts : list Token) :
  open_containers s ts = Some s' ->
  open_containers (s ++ r) ts = Some (s' ++ r).
Proof.
  revert s. induction ts as [|t ts IH]; intro s; simpl.
  - intro H. inversion H. reflexivity.
  - destruct t; try apply IH;
      try (intro H; apply (IH (_ :: s)); assumption);
      destruct s as [|[] s]; simpl; try discriminate; apply IH.
Qed.

Lemma balanced_stack (ts : list Token) (s : list Container) :
  balanced ts -> open_containers s ts = Some s.
Proof. intro H. apply (open_containers_below [] [] s). assumption. Qed.

Lemma balanced_nil : balanced [].
Proof. reflexivity. Qed.

Lemma balanced_app (a b : list Token) :
  balanced a -> balanced b -> balanced (a ++ b).
Proof.
  intros Ha Hb. unfold balanced. rewrite open_containers_app, Ha. apply Hb.
Qed.

Lemma balanced_leaf (t : Token) : is_bracket t = false -> balanced [t].
Proof. intros H. destruct t; simpl in *; try discriminate; reflexivity. Qed.

Lemma balanced_object (ts : list Token) :
  balanced ts -> balanced (TStartObject :: ts ++ [TEndObject]).
Proof.
  intros H. unfold balanced. simpl.
  rewrite open_containers_app, (balanced_stack ts [InObject] H). reflexivity.
Qed.

Lemma balanced_array (ts : list Token) :
  balanced ts -> balanced (TStartArray :: ts ++ [TEndArray]).
Proof.
  intros H. unfold balanced. simpl.
  rewrite open_containers_app, (balanced_stack ts [InArray] H). reflexivity.
Qed.

Lemma bind_inv {A B} (m : M A) (f : A -> M B) (ts : list Token) (r : result B) :
  (x <- m ;; f x) = Some (ts, r) ->
  (exists ts1 a ts2,
     m = Some (ts1, Ok a) /\ f a = Some (ts2, r) /\ ts = ts1 ++ ts2) \/
  (exists err, m = Some (ts, Err err) /\ r = Err err) \/
  (exists msg, m = Some (ts, Panic msg) /\ r = Panic msg).
Proof.
  unfold bind. destruct m as [[ts1 [a|err|msg]]|]; intro H; try discriminate.
  - destruct (f a) as [[ts2 r2]|] eqn:Hf; [|discriminate].
    inversion H; subst. left. exists ts1, a, ts2. auto.
  - inversion H; subst. right. left. exists err. auto.
  - inversion H; subst. right. right. exists msg. auto.
Qed.

(** An invariant of the outcomes of the encoder: a property [T] of the tokens
    appended and a property [E] of the error returned. *)
Section Invariant.

Variable T : list Token -> Prop.
Variable E : error -> Prop.

Hypothesis T_nil : T [].
Hypothesis T_app : forall a b, T a -> T b -> T (a ++ b).
Hypothesis T_leaf : forall t, is_bracket t = false -> T [t].
Hypothesis T_object : forall ts, T ts -> T (TStartObject :: ts ++ [TEndObject]).
Hypothesis T_array : forall ts, T ts -> T (TStartArray :: ts ++ [TEndArray]).
Hypothesis E_MessageSets : E no_MessageSets.
Hypothesis E_InvalidUTF8 :
  forall s, string_accepted s = false -> E (errors_InvalidUTF8 s).
Hypothesis hook_inv :
  forall o m,
    isCustomType (md_FullName (Descriptor m)) = true ->
    T (fst (marshalCustomType o m)) /\
    forall err, snd (marshalCustomType o m) = Err err -> E err.


Lemma inv_ret {A} (a : A) : outcome_inv T E (ret a).
Proof. intros ts r H. inversion H; subst. split; [apply T_nil|discriminate]. Qed.

Lemma inv_panic {A} (msg : string) : outcome_inv T E (@panic A msg).
Proof. intros ts r H. inversion H; subst. split; [apply T_nil|discriminate]. Qed.

Lemma inv_access {A} (x : option A) : outcome_inv T E (access x).
Proof. destruct x; [apply inv_ret|apply inv_panic]. Qed.

Lemma inv_deref {A} (x : option A) : outcome_inv T E (deref x).
Proof. destruct x; [apply inv_ret|apply inv_panic]. Qed.

Lemma inv_tell (t : Token) : is_bracket t = false -> outcome_inv T E (tell [t]).
Proof.
  intros Ht ts r H. inversion H; subst. split; [auto|discriminate].
Qed.

Lemma inv_bind {A B} (m : M A) (f : A -> M B) :
  outcome_inv T E m -> (forall a, outcome_inv T E (f a)) -> outcome_inv T E (x <- m ;; f x).
Proof.
  intros Hm Hf ts r H.
  destruct (bind_inv m f ts r H)
    as [[ts1 [a [ts2 [H1 [H2 ->]]]]]|[[err [H1 ->]]|[msg [H1 ->]]]].
  - destruct (Hm _ _ H1) as [T1 _]. destruct (Hf a _ _ H2) as [T2 E2]. auto.
  - destruct (Hm _ _ H1) as [T1 E1]. split; [assumption|].
    intros err' Herr. inversion Herr; subst. apply E1. reflexivity.
  - destruct (Hm _ _ H1) as [T1 _]. split; [assumption|discriminate].
Qed.

Lemma inv_forM {A} (f : A -> M unit) (l : list A) :
  (forall x, In x l -> outcome_inv T E (f x)) -> outcome_inv T E (forM f l).
Proof.
  induction l as [|x l IH]; simpl; intro H; [apply inv_ret|].
  apply inv_bind; [apply H; auto|]. intros _. apply IH. auto.
Qed.

Lemma inv_WriteString (s : string) : outcome_inv T E (WriteString s).
Proof.
  unfold WriteString. destruct (string_accepted s) eqn:Hacc.
  - apply inv_tell. reflexivity.
  - intros ts r H. inversion H; subst. split; [apply T_leaf; reflexivity|].
    intros err Herr. inversion Herr; subst. auto.
Qed.

Lemma inv_WriteName (s : string) : outcome_inv T E (WriteName s).
Proof.
  unfold WriteName. destruct (string_accepted s) eqn:Hacc.
  - apply inv_tell. reflexivity.
  - intros ts r H. inversion H; subst. split; [apply T_leaf; reflexivity|].
    intros err Herr. inversion Herr; subst. auto.
Qed.

Lemma inv_ignore_error (m : M unit) : outcome_inv T E m -> outcome_inv T E (ignore_error m).
Proof.
  intros Hm ts r H. unfold ignore_error in H.
  destruct m as [[ts' [[]|err|msg]]|]; inversion H; subst;
    try (apply Hm; reflexivity).
  destruct (Hm _ _ eq_refl) as [Hts _]. split; [assumption|discriminate].
Qed.

Lemma inv_object (body : M unit) :
  outcome_inv T E body -> outcome_inv T E (StartObject ;; defer [TEndObject] body).
Proof.
  intros Hb ts r H. unfold StartObject, tell, defer, bind in H.
  destruct body as [[ts' r']|]; [|discriminate].
  inversion H; subst. destruct (Hb _ _ eq_refl) as [Hts Herr].
  split; [apply T_object; assumption|assumption].
Qed.

Lemma inv_array (body : M unit) :
  outcome_inv T E body -> outcome_inv T E (StartArray ;; defer [TEndArray] body).
Proof.
  intros Hb ts r H. unfold StartArray, tell, defer, bind in H.
  destruct body as [[ts' r']|]; [|discriminate].
  inversion H; subst. destruct (Hb _ _ eq_refl) as [Hts Herr].
  split; [apply T_array; assumption|assumption].
Qed.

Section Level.

Variable o : MarshalOptions.
Variable rec : Message -> M unit.
Hypothesis Hrec : forall m, outcome_inv T E (rec m).

Lemma inv_marshalSingular (val : Value) (fd : FieldDescriptor) :
  outcome_inv T E (marshalSingular o rec val fd).
Proof.
  unfold marshalSingular, WriteNull, WriteBool, WriteInt, WriteUint, WriteFloat.
  destruct (negb (IsValid val)); [apply inv_tell; reflexivity|].
  destruct (fd_Kind fd);
    try (apply inv_bind; [apply inv_access|intro; apply inv_tell; reflexivity]).
  - apply inv_bind; [apply inv_deref|]. intro ed.
    destruct (String.eqb _ _); [apply inv_tell; reflexivity|].
    apply inv_bind; [apply inv_access|]. intro n.
    destruct (ByNumber ed n); [destruct (UseEnumNumbers o)|];
      try (apply inv_tell; reflexivity). apply inv_WriteString.
  - apply inv_ignore_error, inv_WriteString.
  - apply inv_ignore_error, inv_WriteString.
  - apply inv_ignore_error, inv_WriteString.
  - apply inv_ignore_error, inv_WriteString.
  - apply inv_ignore_error, inv_WriteString.
  - apply inv_WriteString.
  - apply inv_bind; [apply inv_access|]. intro. apply inv_WriteString.
  - apply inv_bind; [apply inv_access|]. intro. apply Hrec.
  - apply inv_bind; [apply inv_access|]. intro. apply Hrec.
  - apply inv_panic.
Qed.

Lemma inv_marshalValue (val : Value) (fd : FieldDescriptor) :
  outcome_inv T E (marshalValue o rec val fd).
Proof.
  unfold marshalValue.
  destruct (fd_IsList fd); [|destruct (fd_IsMap fd)].
  - apply inv_bind; [apply inv_access|]. intro l. unfold marshalList.
    apply inv_array, inv_forM. intros. apply inv_marshalSingular.
  - apply inv_bind; [apply inv_access|]. intro es. unfold marshalMap.
    apply inv_object. cbv zeta.
    apply inv_bind; [apply inv_deref|]. intro kfd.
    apply inv_bind.
    + unfold sortMap. destruct (_ && _); [apply inv_panic|apply inv_ret].
    + intro entries. apply inv_forM. intros e _. unfold marshalMapEntry.
      apply inv_bind; [apply inv_WriteName|]. intros _. unfold marshalMapValue.
      destruct (fd_MapValue fd); [apply inv_marshalSingular|].
      destruct (negb _); [apply inv_tell; reflexivity|apply inv_panic].
  - apply inv_marshalSingular.
Qed.

Lemma inv_marshalMessage_body (m : Message) :
  outcome_inv T E (marshalMessage_body o rec m).
Proof.
  unfold marshalMessage_body.
  destruct (isCustomType _) eqn:Hcustom.
  - intros ts r H. inversion H as [Hhook].
    destruct (hook_inv o m Hcustom) as [Hts Herr]. rewrite Hhook in *. auto.
  - apply inv_object. unfold marshalFields.
    destruct (_ && _).
    + intros ts r H. inversion H; subst. split; [apply T_nil|].
      intros err Herr. inversion Herr; subst. apply E_MessageSets.
    + apply inv_bind.
      * unfold marshalKnownFields. apply inv_forM. intros fd _.
        unfold marshalField. destruct (field_value o m fd); [|apply inv_ret].
        apply inv_bind.
        { unfold field_name. destruct (UseProtoNames o); [|apply inv_ret].
          destruct (fd_Kind fd); try apply inv_ret. apply inv_deref. }
        intro name. apply inv_bind; [apply inv_WriteName|].
        intros _. apply inv_marshalValue.
      * intros _. unfold marshalExtensions. cbv zeta. apply inv_forM.
        intros e _. unfold marshalExtension.
        apply inv_bind; [apply inv_WriteName|]. intros _. apply inv_marshalValue.
Qed.

End Level.

Lemma inv_marshalMessage (fuel : nat) (o : MarshalOptions) (m : Message) :
  outcome_inv T E (marshalMessage fuel o m).
Proof.
  revert m. induction fuel as [|fuel IH]; intro m; simpl.
  - intros ts r H. discriminate.
  - apply inv_marshalMessage_body. exact IH.
Qed.

End Invariant.

(** ** Successful runs spell a JSON value *)

Lemma bind_Ok_inv {A B} (m : M A) (f : A -> M B) (ts : list Token) (b : B) :
  (x <- m ;; f x) = Some (ts, Ok b) ->
  exists ts1 a ts2,
    m = Some (ts1, Ok a) /\ f a = Some (ts2, Ok b) /\ ts = ts1 ++ ts2.
Proof.
  intro H.
  destruct (bind_inv m f ts (Ok b) H)
    as [H1|[[err [_ H1]]|[msg [_ H1]]]]; [assumption|discriminate..].
Qed.

Lemma object_Ok_inv (body : M unit) (ts : list Token) :
  (StartObject ;; defer [TEndObject] body) = Some (ts, Ok tt) ->
  exists ts', body = Some (ts', Ok tt) /\ ts = TStartObject :: ts' ++ [TEndObject].
Proof.
  unfold StartObject, tell, defer, bind.
  destruct body as [[ts' r]|]; [|discriminate].
  intro H. inversion H; subst. exists ts'. auto.
Qed.

Lemma array_Ok_inv (body : M unit) (ts : list Token) :
  (StartArray ;; defer [TEndArray] body) = Some (ts, Ok tt) ->
  exists ts', body = Some (ts', Ok tt) /\ ts = TStartArray :: ts' ++ [TEndArray].
Proof.
  unfold StartArray, tell, defer, bind.
  destruct body as [[ts' r]|]; [|discriminate].
  intro H. inversion H; subst. exists ts'. auto.
Qed.

Lemma forM_Ok {A} (f : A -> M unit) (l : list A) (ts : list Token) :
  forM f l = Some (ts, Ok tt) ->
  exists vs,
    Forall2 (fun x v => f x = Some (v, Ok tt)) l vs /\ ts = List.concat vs.
Proof.
  revert ts. induction l as [|x l IH]; simpl; intros ts H.
  - inversion H. exists []. split; constructor.
  - destruct (bind_Ok_inv _ _ _ _ H) as [ts1 [[] [ts2 [H1 [H2 ->]]]]].
    destruct (IH ts2 H2) as [vs [Hvs ->]].
    exists (ts1 :: vs). split; [constructor; assumption|reflexivity].
Qed.

Lemma accepted_only_app (a b : list Token) :
  accepted_only (a ++ b) = accepted_only a && accepted_only b.
Proof. apply forallb_app. Qed.

Lemma accepted_only_concat (vs : list (list Token)) (v : list Token) :
  accepted_only (List.concat vs) = true -> In v vs -> accepted_only v = true.
Proof.
  induction vs as [|x vs IH]; simpl; [tauto|].
  rewrite accepted_only_app. intros H [->|Hin];
    apply andb_true_iff in H; destruct H; auto.
Qed.

Lemma JSON_members_nil : JSON_members [].
Proof. exists []. split; constructor. Qed.

Lemma JSON_members_app (a b : list Token) :
  JSON_members a -> JSON_members b -> JSON_members (a ++ b).
Proof.
  intros [ma [Ha ->]] [mb [Hb ->]]. exists (ma ++ mb). split.
  - apply Forall_app. auto.
  - unfold members_tokens. rewrite flat_map_app. reflexivity.
Qed.

Lemma JSON_members_one (name : string) (v : list Token) :
  JSON_value v -> JSON_members (TName name :: v).
Proof.
  intro Hv. exists [(name, v)]. split.
  - constructor; [assumption|constructor].
  - unfold members_tokens. simpl. rewrite app_nil_r. reflexivity.
Qed.

Lemma JSON_members_forM {A} (f : A -> M unit) (l : list A) (ts : list Token) :
  (forall x v, In x l -> f x = Some (v, Ok tt) -> accepted_only v = true ->
     JSON_members v) ->
  forM f l = Some (ts, Ok tt) -> accepted_only ts = true -> JSON_members ts.
Proof.
  intros Hf H Hacc. destruct (forM_Ok f l ts H) as [vs [Hvs ->]].
  clear H. induction Hvs as [|x v l vs Hx Hrest IH]; simpl in *.
  - apply JSON_members_nil.
  - rewrite accepted_only_app in Hacc. apply andb_true_iff in Hacc.
    destruct Hacc as [Hv Hvs]. apply JSON_members_app.
    + apply (Hf x); auto.
    + apply IH; [|assumption]. intros y w Hy. apply Hf. auto.
Qed.

Lemma JSON_members_named (name : string) (act : M unit) (ts : list Token) :
  (forall v, act = Some (v, Ok tt) -> accepted_only v = true -> JSON_value v) ->
  (WriteName name ;; act) = Some (ts, Ok tt) ->
  accepted_only ts = true -> JSON_members ts.
Proof.
  intros Hact H Hacc.
  destruct (bind_Ok_inv _ _ _ _ H) as [ts1 [[] [ts2 [H1 [H2 ->]]]]].
  unfold WriteName in H1. destruct (string_accepted name); [|discriminate].
  inversion H1; subst. simpl in *. apply JSON_members_one. auto.
Qed.

Section Spelling.

Variable o : MarshalOptions.
Variable rec : Message -> M unit.
Hypothesis Hrec :
  forall m ts, rec m = Some (ts, Ok tt) -> accepted_only ts = true ->
    JSON_value ts.

Lemma marshalSingular_spells (val : Value) (fd : FieldDescriptor)
  (ts : list Token) :
  marshalSingular o rec val fd = Some (ts, Ok tt) ->
  accepted_only ts = true -> JSON_value ts.
Proof.
  unfold marshalSingular, WriteNull, WriteBool, WriteInt, WriteUint,
    WriteFloat, WriteString.
  destruct (negb (IsValid val)).
  { intros H _. inversion H. constructor. }
  assert (Hstring : forall s r,
            (if string_accepted s then tell [TString s]
             else Some ([TRejected s], r)) = Some (ts, Ok tt) ->
            accepted_only ts = true -> JSON_value ts).
  { intros s r H Hacc. destruct (string_accepted s); inversion H; subst;
      [constructor|discriminate]. }
  assert (Hdropped : forall s,
            ignore_error
              (if string_accepted s then tell [TString s]
               else Some ([TRejected s], Err (errors_InvalidUTF8 s)))
            = Some (ts, Ok tt) ->
            accepted_only ts = true -> JSON_value ts).
  { intros s H Hacc. destruct (string_accepted s); inversion H; subst;
      [constructor|discriminate]. }
  destruct (fd_Kind fd); intros H Hacc;
    try (eapply Hdropped; eassumption);
    try (eapply Hstring; eassumption);
    try (destruct (bind_Ok_inv _ _ _ _ H) as [ts1 [a [ts2 [H1 [H2 ->]]]]];
         match type of H1 with
         | access ?x = _ => destruct x; inversion H1; subst
         | deref ?x = _ => destruct x; inversion H1; subst
         end; simpl in * );
    try (inversion H2; constructor; fail);
    try discriminate.
  - destruct (String.eqb _ _); [inversion H2; constructor|].
    destruct (bind_Ok_inv _ _ _ _ H2) as [ts1 [n [ts3 [H1' [H3 ->]]]]].
    destruct (Value_Enum val); inversion H1'; subst. simpl in *.
    destruct (ByNumber a n); [destruct (UseEnumNumbers o)|];
      try (inversion H3; constructor; fail).
    eapply Hstring; eassumption.
  - eapply Hstring; eassumption.
  - eapply Hrec; eassumption.
  - eapply Hrec; eassumption.
Qed.

Lemma marshalValue_spells (val : Value) (fd : FieldDescriptor)
  (ts : list Token) :
  marshalValue o rec val fd = Some (ts, Ok tt) ->
  accepted_only ts = true -> JSON_value ts.
Proof.
  unfold marshalValue.
  destruct (fd_IsList fd); [|destruct (fd_IsMap fd)]; intros H Hacc.
  - destruct (bind_Ok_inv _ _ _ _ H) as [ts1 [l [ts2 [H1 [H2 ->]]]]].
    destruct (Value_List val); inversion H1; subst. simpl in *.
    unfold marshalList in H2.
    destruct (array_Ok_inv _ _ H2) as [ts' [Hbody ->]].
    destruct (forM_Ok _ _ _ Hbody) as [vs [Hvs ->]].
    apply JSON_array.
    simpl in Hacc. rewrite accepted_only_app in Hacc.
    apply andb_true_iff in Hacc. destruct Hacc as [Hacc _].
    apply Forall_forall. intros v Hv.
    destruct (Forall2_In_r _ _ _ _ Hvs Hv) as [x [_ Hx]].
    eapply marshalSingular_spells; [eassumption|].
    eapply accepted_only_concat; eassumption.
  - destruct (bind_Ok_inv _ _ _ _ H) as [ts1 [es [ts2 [H1 [H2 ->]]]]].
    destruct (Value_Map val); inversion H1; subst. simpl in *.
    unfold marshalMap in H2.
    destruct (object_Ok_inv _ _ H2) as [ts' [Hbody ->]].
    simpl in Hacc. rewrite accepted_only_app in Hacc.
    apply andb_true_iff in Hacc. destruct Hacc as [Hacc _].
    cbv zeta in Hbody.
    destruct (bind_Ok_inv _ _ _ _ Hbody) as [t1 [kfd [t2 [K1 [K2 ->]]]]].
    destruct (fd_MapKey fd); inversion K1; subst. simpl in *.
    destruct (bind_Ok_inv _ _ _ _ K2) as [t1 [entries [t3 [S1 [S2 ->]]]]].
    unfold sortMap in S1. destruct (_ && _); inversion S1; subst. simpl in *.
    assert (Hm : JSON_members t3).
    { eapply JSON_members_forM; [|eassumption|assumption].
      intros e v _ He Hv. unfold marshalMapEntry in He.
      eapply JSON_members_named; [|eassumption|assumption].
      intros v' Hv' Hacc'. unfold marshalMapValue in Hv'.
      destruct (fd_MapValue fd).
      - eapply marshalSingular_spells; eassumption.
      - destruct (negb _); inversion Hv'. constructor. }
    destruct Hm as [members [Hmembers ->]]. apply JSON_object. assumption.
  - eapply marshalSingular_spells; eassumption.
Qed.

Lemma marshalFields_spells (m : Message) (ts : list Token) :
  marshalFields o rec m = Some (ts, Ok tt) ->
  accepted_only ts = true -> JSON_members ts.
Proof.
  unfold marshalFields. destruct (_ && _); [discriminate|].
  intros H Hacc.
  destruct (bind_Ok_inv _ _ _ _ H) as [ts1 [[] [ts2 [H1 [H2 ->]]]]].
  rewrite accepted_only_app in Hacc. apply andb_true_iff in Hacc.
  destruct Hacc as [Hacc1 Hacc2]. apply JSON_members_app.
  - unfold marshalKnownFields in H1.
    eapply JSON_members_forM; [|eassumption|assumption].
    intros fd v _ Hfd Hv. unfold marshalField in Hfd.
    destruct (field_value o m fd) as [val|].
    + destruct (bind_Ok_inv _ _ _ _ Hfd) as [t1 [name [t2 [N1 [N2 ->]]]]].
      assert (t1 = []) as ->.
      { unfold field_name in N1.
        destruct (UseProtoNames o); [|inversion N1; reflexivity].
        destruct (fd_Kind fd); try (inversion N1; reflexivity).
        destruct (fd_Message_Name fd); inversion N1; reflexivity. }
      simpl in *. eapply JSON_members_named; [|eassumption|assumption].
      intros v' Hv' Hacc'. eapply marshalValue_spells; eassumption.
    + inversion Hfd. apply JSON_members_nil.
  - unfold marshalExtensions in H2. cbv zeta in H2.
    eapply JSON_members_forM; [|eassumption|assumption].
    intros e v _ He Hv. unfold marshalExtension in He.
    eapply JSON_members_named; [|eassumption|assumption].
    intros v' Hv' Hacc'. eapply marshalValue_spells; eassumption.
Qed.

End Spelling.

(** ** Well-typed messages do not panic *)

Lemma np_ret {A} (a : A) : never_panics (ret a).
Proof. intros ts msg H. discriminate. Qed.

Lemma np_tell (ts : list Token) : never_panics (tell ts).
Proof. intros ts' msg H. discriminate. Qed.

Lemma np_bind {A B} (m : M A) (f : A -> M B) :
  never_panics m ->
  (forall ts a, m = Some (ts, Ok a) -> never_panics (f a)) ->
  never_panics (x <- m ;; f x).
Proof.
  intros Hm Hf ts msg H.
  destruct (bind_inv m f ts (Panic msg) H)
    as [[ts1 [a [ts2 [H1 [H2 _]]]]]|[[err [_ H1]]|[msg' [H1 _]]]].
  - exact (Hf ts1 a H1 ts2 msg H2).
  - discriminate.
  - exact (Hm ts msg' H1).
Qed.

Lemma np_forM {A} (f : A -> M unit) (l : list A) :
  (forall x, In x l -> never_panics (f x)) -> never_panics (forM f l).
Proof.
  induction l as [|x l IH]; simpl; intro H; [apply np_ret|].
  apply np_bind; [apply H; auto|]. intros _ _ _. apply IH. auto.
Qed.

Lemma np_WriteString (s : string) : never_panics (WriteString s).
Proof.
  unfold WriteString. intros ts msg.
  destruct (string_accepted s); discriminate.
Qed.

Lemma np_WriteName (s : string) : never_panics (WriteName s).
Proof.
  unfold WriteName. intros ts msg.
  destruct (string_accepted s); discriminate.
Qed.

Lemma np_object (body : M unit) :
  never_panics body -> never_panics (StartObject ;; defer [TEndObject] body).
Proof.
  intros Hb ts msg. unfold StartObject, tell, defer, bind.
  destruct body as [[ts' [[]|err|msg']]|] eqn:E; try discriminate.
  exfalso. exact (Hb ts' msg' eq_refl).
Qed.

Lemma np_array (body : M unit) :
  never_panics body -> never_panics (StartArray ;; defer [TEndArray] body).
Proof.
  intros Hb ts msg. unfold StartArray, tell, defer, bind.
  destruct body as [[ts' [[]|err|msg']]|] eqn:E; try discriminate.
  exfalso. exact (Hb ts' msg' eq_refl).
Qed.

Lemma conforms_eq (fd : FieldDescriptor) (v : Value) :
  conforms fd v
  = if fd_IsList fd then
      match v with
      | VList l => forallb (singular_conforms well_typed fd) l
      | _ => false
      end
    else if fd_IsMap fd then
      match v with
      | VMap es =>
          match fd_MapKey fd, fd_MapValue fd with
          | Some kfd, Some vfd =>
              forallb (fun kv => MapKey_has_kind (fd_Kind kfd) (fst kv)
                                 && singular_conforms well_typed vfd (snd kv))
                es
          | _, _ => false
          end
      | _ => false
      end
    else singular_conforms well_typed fd v.
Proof. destruct v; reflexivity. Qed.

Lemma well_typed_eq (m : Message) :
  well_typed m
  = forallb (fun fd =>
               field_wellformed fd
               && ((negb (Has m fd) && isSingularMessage fd)
                   || conforms fd (Get m fd)))
      (md_Fields (Descriptor m))
    && forallb (fun p => negb (fd_IsExtension (fst p))
                         || conforms (fst p) (snd p))
         (Range m).
Proof. destruct m; reflexivity. Qed.

Section Typed.

Hypothesis Hsort : sort_contract sort_Slice.
Hypothesis Hhook :
  forall o m msg,
    isCustomType (md_FullName (Descriptor m)) = true ->
    snd (marshalCustomType o m) <> Panic msg.

Variable o : MarshalOptions.
Variable rec : Message -> M unit.
Hypothesis Hrec : forall m, well_typed m = true -> never_panics (rec m).

Lemma np_marshalSingular (val : Value) (fd : FieldDescriptor) :
  singular_conforms well_typed fd val = true \/ val = VInvalid ->
  never_panics (marshalSingular o rec val fd).
Proof.
  intros [H| ->]; [|apply np_tell].
  unfold marshalSingular, singular_conforms in *.
  destruct val; simpl in H;
    destruct (fd_Kind fd); simpl in H; try discriminate;
    cbn [IsValid negb Value_Bool Value_Int Value_Uint Value_Float
         Value_Bytes Value_Enum Value_Message access];
    try rewrite bind_ret_l;
    try apply np_tell; try apply np_WriteString;
    try (unfold ignore_error, WriteString; intros ts msg;
         destruct (string_accepted _); discriminate).
  - destruct (fd_Enum fd) as [ed|]; [|discriminate]. unfold deref.
    rewrite bind_ret_l. destruct (String.eqb _ _); [apply np_tell|].
    rewrite bind_ret_l.
    destruct (ByNumber ed n); [destruct (UseEnumNumbers o)|];
      try apply np_tell. apply np_WriteString.
  - apply Hrec. assumption.
  - apply Hrec. assumption.
Qed.

Lemma np_marshalValue (val : Value) (fd : FieldDescriptor) :
  conforms fd val = true -> never_panics (marshalValue o rec val fd).
Proof.
  rewrite conforms_eq. unfold marshalValue.
  destruct (fd_IsList fd); [|destruct (fd_IsMap fd)]; intro H.
  - destruct val; try discriminate. cbn [Value_List access].
    rewrite bind_ret_l. unfold marshalList. apply np_array, np_forM. intros x Hx.
    apply np_marshalSingular. left.
    rewrite forallb_forall in H. auto.
  - destruct val; try discriminate.
    destruct (fd_MapKey fd) as [kfd|] eqn:Hk; [|discriminate].
    destruct (fd_MapValue fd) as [vfd|] eqn:Hv; [|discriminate].
    cbn [Value_Map access]. rewrite bind_ret_l.
    unfold marshalMap. apply np_object.
    cbv zeta. rewrite Hk. unfold deref. rewrite bind_ret_l.
    rewrite forallb_forall in H.
    assert (Hall : forall e, In e (map_entries entries) ->
              MapKey_has_kind (fd_Kind kfd) (key e) = true /\
              singular_conforms well_typed vfd (value e) = true).
    { intros e He. unfold map_entries in He. apply in_map_iff in He.
      destruct He as [kv [<- Hin]]. simpl. apply andb_true_iff. auto. }
    unfold sortMap.
    replace (forallb (sortMap_comparable (fd_Kind kfd)) (map_entries entries))
      with true.
    2: { symmetry. apply forallb_forall. intros e He.
         apply typed_key_comparable. apply Hall. assumption. }
    rewrite andb_false_r, bind_ret_l.
    apply np_forM. intros e He.
    assert (He' : In e (map_entries entries)).
    { eapply Permutation_in; [|exact He]. apply Hsort. }
    unfold marshalMapEntry. apply np_bind; [apply np_WriteName|].
    intros _ _ _. unfold marshalMapValue. rewrite Hv.
    apply np_marshalSingular. left. apply Hall. assumption.
  - apply np_marshalSingular. auto.
Qed.

Lemma np_marshalMessage_body (m : Message) :
  well_typed m = true -> never_panics (marshalMessage_body o rec m).
Proof.
  rewrite well_typed_eq. intro H. apply andb_true_iff in H.
  destruct H as [Hfields Hrange]. rewrite forallb_forall in Hfields, Hrange.
  unfold marshalMessage_body. destruct (isCustomType _) eqn:Hcustom.
  { intros ts msg Heq. inversion Heq as [Heq'].
    apply (Hhook o m msg Hcustom). rewrite Heq'. reflexivity. }
  apply np_object. unfold marshalFields.
  destruct (_ && _); [intros ts msg; discriminate|].
  apply np_bind.
  - unfold marshalKnownFields. apply np_forM. intros fd Hfd.
    specialize (Hfields fd Hfd). apply andb_true_iff in Hfields.
    destruct Hfields as [Hwf Hval].
    unfold field_wellformed in Hwf. apply andb_true_iff in Hwf.
    destruct Hwf as [Hrep Hgroup].
    unfold marshalField. destruct (field_value o m fd) as [val|] eqn:Hfv;
      [|apply np_ret].
    apply np_bind.
    { unfold field_name. destruct (UseProtoNames o); [|apply np_ret].
      destruct (fd_Kind fd); try apply np_ret.
      destruct (fd_Message_Name fd); [apply np_ret|discriminate]. }
    intros _ name _. apply np_bind; [apply np_WriteName|]. intros _ _ _.
    unfold field_value in Hfv.
    destruct (negb (Has m fd)).
    + destruct (negb (EmitUnpopulated o) || isSome (fd_ContainingOneof fd));
        [discriminate|].
      destruct (isProto2Scalar fd || isSingularMessage fd) eqn:Hnull;
        inversion Hfv; subst.
      2: { apply np_marshalValue. apply orb_false_iff in Hnull.
           destruct Hnull as [_ Hnull]. rewrite Hnull in Hval.
           exact Hval. }
      unfold marshalValue.
      destruct (fd_IsList fd || fd_IsMap fd) eqn:Hrepeated.
      * exfalso. apply andb_true_iff in Hrep. destruct Hrep as [Hdef Hcard].
        unfold isProto2Scalar, isSingularMessage in Hnull.
        destruct (fd_Default_IsValid fd); [discriminate|].
        destruct (fd_Cardinality fd); try discriminate.
        destruct (fd_Syntax fd); discriminate.
      * apply orb_false_iff in Hrepeated. destruct Hrepeated as [-> ->].
        apply np_marshalSingular. auto.
    + inversion Hfv; subst. apply np_marshalValue. assumption.
  - intros _ _ _. unfold marshalExtensions. cbv zeta. apply np_forM.
    intros e He.
    assert (He' : In e (collect_extensions (Range m))).
    { eapply Permutation_in; [|exact He]. apply Hsort. }
    apply collect_extensions_In in He'.
    destruct He' as [fd [v [Hin [Hext ->]]]].
    unfold marshalExtension. simpl.
    apply np_bind; [apply np_WriteName|]. intros _ _ _.
    apply np_marshalValue. specialize (Hrange (fd, v) Hin). simpl in Hrange.
    rewrite Hext in Hrange. exact Hrange.
Qed.

End Typed.

Lemma np_marshalMessage (fuel : nat) (o : MarshalOptions) (m : Message) :
  sort_contract sort_Slice ->
  (forall o m msg,
     isCustomType (md_FullName (Descriptor m)) = true ->
     snd (marshalCustomType o m) <> Panic msg) ->
  well_typed m = true -> never_panics (marshalMessage fuel o m).
Proof.
  intros Hsort Hhook. revert m.
  induction fuel as [|fuel IH]; intros m Hm; simpl.
  - intros ts msg H. discriminate.
  - apply np_marshalMessage_body; assumption.
Qed.

(** ** What the runs of the encoder have in common *)

(** X1: every object and array that marshaling a message opens is closed
    again, in nesting order, however the run ends: with a return, with an
    error or with a panic.  The custom renderings of the well-known types
    are taken to do the same. *)
Theorem brackets_always_closed
  (fuel : nat) (o : MarshalOptions) (m : Message)
  (ts : list Token) (r : result unit) :
  (forall o m,
     isCustomType (md_FullName (Descriptor m)) = true ->
     balanced (fst (marshalCustomType o m))) ->
  marshalMessage fuel o m = Some (ts, r) -> balanced ts.
Proof.
  intros Hhook H.
  apply (inv_marshalMessage balanced (fun _ => True)
           balanced_nil balanced_app balanced_leaf balanced_object
           balanced_array I (fun _ _ => I)
           (fun o m Hcustom => conj (Hhook o m Hcustom) (fun _ _ => I))
           fuel o m ts r H).
Qed.

(** X2: an error that Marshal returns is one of these: the error of
    NewEncoder for the indent, the error for message sets, the error of the
    writer for a string it refuses, or an error of a custom rendering, each
    returned with a nil slice; or else the error of the completeness check,
    returned with the bytes and only when AllowPartial is off. *)
Theorem Marshal_error_sources
  (hook_error : error -> Prop)
  (fuel : nat) (o : MarshalOptions) (m : Message)
  (b : option (list Byte.byte)) (err : error) :
  (forall o m err,
     isCustomType (md_FullName (Descriptor m)) = true ->
     snd (marshalCustomType o m) = Err err -> hook_error err) ->
  MarshalOptions_Marshal fuel o m = Some (Returned b (Some err)) ->
  (b = None /\
   (NewEncoder (Indent o) = inr err \/
    err = no_MessageSets \/
    (exists s, err = errors_InvalidUTF8 s /\ string_accepted s = false) \/
    hook_error err)) \/
  (b <> None /\ AllowPartial o = false /\ IsInitialized m = Some err).
Proof.
  intros Hhook H. unfold MarshalOptions_Marshal in H.
  destruct (NewEncoder (Indent o)) as [encoder|err0] eqn:Henc.
  2: { inversion H; subst. left. auto. }
  destruct (marshalMessage fuel (default_Resolver o) m)
    as [[ts [[]|err0|msg]]|] eqn:Hbody; try discriminate.
  - assert (Hp : AllowPartial (default_Resolver o) = AllowPartial o).
    { unfold default_Resolver. destruct (Resolver_ o); reflexivity. }
    rewrite Hp in H. destruct (AllowPartial o); [discriminate|].
    inversion H; subst. right.
    split; [discriminate|]. split; [reflexivity|congruence].
  - inversion H; subst. left. split; [reflexivity|]. right.
    apply (inv_marshalMessage (fun _ => True)
             (fun e => e = no_MessageSets \/
                       (exists s, e = errors_InvalidUTF8 s /\
                                  string_accepted s = false) \/
                       hook_error e)
             I (fun _ _ _ _ => I) (fun _ _ => I) (fun _ _ => I)
             (fun _ _ => I) (or_introl eq_refl)
             (fun s Hs => or_intror (or_introl (ex_intro _ s (conj eq_refl Hs))))
             (fun o m Hcustom =>
                conj I (fun e He =>
                          or_intror (or_intror (Hhook o m e Hcustom He))))
             fuel (default_Resolver o) m ts (Err err) Hbody).
    reflexivity.
Qed.


(** X4: marshaling a well-typed message never panics, and with a recursion
    budget above the nesting depth of the message it does come to an end.
    Well-typed means that the values the message hands out have the Go type
    of their field's kind, as protoreflect guarantees; sort.Slice is taken
    to meet its contract and the custom renderings not to panic. *)
Theorem well_typed_message_never_panics
  (fuel : nat) (o : MarshalOptions) (m : Message) :
  sort_contract sort_Slice ->
  (forall o m msg,
     isCustomType (md_FullName (Descriptor m)) = true ->
     snd (marshalCustomType o m) <> Panic msg) ->
  well_typed m = true ->
  never_panics (marshalMessage fuel o m) /\
  (forall msg, MarshalOptions_Marshal fuel o m <> Some (Panicked msg)) /\
  ((depth m < fuel)%nat -> marshalMessage fuel o m <> None).
Proof.
  intros Hsort Hhook Hm. split; [|split].
  - apply np_marshalMessage; assumption.
  - intros msg H. unfold MarshalOptions_Marshal in H.
    destruct (NewEncoder (Indent o)); [|discriminate].
    destruct (marshalMessage fuel (default_Resolver o) m)
      as [[ts [[]|err0|msg']]|] eqn:Hbody; try discriminate.
    + destruct (AllowPartial (default_Resolver o)); discriminate.
    + exact (np_marshalMessage fuel (default_Resolver o) m Hsort Hhook Hm
               ts msg' Hbody).
  - apply marshalMessage_enough_fuel. assumption.
Qed.

(** ** Loops end at the first error *)

Lemma forM_first_error {A} (f : A -> M unit) (l : list A) (x : A)
  (rest : list A) (vs : list (list Token)) (tx : list Token) (err : error) :
  Forall2 (fun y v => f y = Some (v, Ok tt)) l vs ->
  f x = Some (tx, Err err) ->
  forM f (l ++ x :: rest) = Some (List.concat vs ++ tx, Err err).
Proof.
  intros Hvs Hx. induction Hvs as [|y v l vs Hy Hrest IH]; simpl.
  - rewrite Hx. reflexivity.
  - rewrite Hy, IH. simpl. rewrite app_assoc. reflexivity.
Qed.

(** X5: marshalList ends at the first element that fails: the elements
    before it are written, the tokens of the failing element are the last
    ones of the list, no later element is visited, the array is closed all
    the same and the error is returned. *)
Theorem list_stops_at_first_error
  (o : MarshalOptions) (rec : Message -> M unit) (fd : FieldDescriptor)
  (items : list Value) (x : Value) (rest : list Value)
  (vs : list (list Token)) (tx : list Token) (err : error) :
  Forall2 (fun item v => marshalSingular o rec item fd = Some (v, Ok tt))
    items vs ->
  marshalSingular o rec x fd = Some (tx, Err err) ->
  marshalList o rec (items ++ x :: rest) fd
  = Some (TStartArray :: List.concat vs ++ tx ++ [TEndArray], Err err).
Proof.
  intros Hvs Hx. unfold marshalList.
  rewrite (forM_first_error (fun item => marshalSingular o rec item fd)
             items x rest vs tx err Hvs Hx).
  simpl. rewrite <- app_assoc. reflexivity.
Qed.

(** X6: marshaling a message ends at the first declared field that fails:
    the fields declared before it are written, no later field and no
    extension is written, the object is closed all the same and the error
    is returned. *)
Theorem message_stops_at_first_error
  (fuel : nat) (o : MarshalOptions) (m : Message)
  (before : list FieldDescriptor) (fd : FieldDescriptor)
  (after : list FieldDescriptor) (ts tf : list Token) (err : error) :
  isCustomType (md_FullName (Descriptor m)) = false ->
  negb ProtoLegacy && md_IsMessageSet (Descriptor m) = false ->
  md_Fields (Descriptor m) = before ++ fd :: after ->
  forM (marshalField o (marshalMessage fuel o) m) before = Some (ts, Ok tt) ->
  marshalField o (marshalMessage fuel o) m fd = Some (tf, Err err) ->
  marshalMessage (S fuel) o m
  = Some (TStartObject :: ts ++ tf ++ [TEndObject], Err err).
Proof.
  intros Hcustom Hset Hfields Hbefore Hfd. simpl.
  unfold marshalMessage_body, marshalFields, marshalKnownFields.
  rewrite Hcustom, Hset, Hfields.
  destruct (forM_Ok _ _ _ Hbefore) as [vs [Hvs ->]].
  rewrite (forM_first_error _ before fd after vs tf err Hvs Hfd).
  simpl. rewrite <- app_assoc. reflexivity.
Qed.

(** X7: a field of a 64-bit integer kind never makes marshalSingular fail,
    whatever value it is handed: null is written for an invalid value and
    the string form of the value otherwise, and the error of the writer for
    a string it refuses is dropped. *)
Theorem int64_field_never_fails
  (o : MarshalOptions) (rec : Message -> M unit)
  (val : Value) (fd : FieldDescriptor) :
  is64 (fd_Kind fd) = true ->
  marshalSingular o rec val fd
  = Some ([if negb (IsValid val) then TNull
           else if string_accepted (Value_String val)
                then TString (Value_String val)
                else TRejected (Value_String val)],
          Ok tt).
Proof.
  intro Hkind. unfold marshalSingular.
  destruct (negb (IsValid val)); [reflexivity|].
  destruct (fd_Kind fd); simpl in Hkind; try discriminate;
    unfold ignore_error, WriteString;
    destruct (string_accepted (Value_String val)); reflexivity.
Qed.

(** ** Messages with nothing to write *)

Lemma forM_nothing {A} (f : A -> M unit) (l : list A) :
  (forall x, In x l -> f x = ret tt) -> forM f l = ret tt.
Proof.
  induction l as [|x l IH]; simpl; intro H; [reflexivity|].
  rewrite (H x), IH; auto.
Qed.


(** ** Declared fields *)


(** ** The options that marshaling a message reads *)

Lemma bind_ext {A B} (m : M A) (f g : A -> M B) :
  (forall a, f a = g a) -> (x <- m ;; f x) = (x <- m ;; g x).
Proof.
  intro H. unfold bind. destruct m as [[ts [a|err|msg]]|]; try reflexivity.
  rewrite H. reflexivity.
Qed.

Section Options.

Variables o o' : MarshalOptions.
Hypothesis Hnames : UseProtoNames o = UseProtoNames o'.
Hypothesis Henums : UseEnumNumbers o = UseEnumNumbers o'.
Hypothesis Hemit : EmitUnpopulated o = EmitUnpopulated o'.

Variables rec rec' : Message -> M unit.
Hypothesis Hrec : forall m, rec m = rec' m.

Lemma marshalSingular_options (val : Value) (fd : FieldDescriptor) :
  marshalSingular o rec val fd = marshalSingular o' rec' val fd.
Proof.
  unfold marshalSingular. rewrite Henums.
  destruct (negb (IsValid val)); [reflexivity|].
  destruct (fd_Kind fd); try reflexivity; apply bind_ext; apply Hrec.
Qed.

Lemma marshalValue_options (val : Value) (fd : FieldDescriptor) :
  marshalValue o rec val fd = marshalValue o' rec' val fd.
Proof.
  unfold marshalValue.
  destruct (fd_IsList fd); [|destruct (fd_IsMap fd)].
  - apply bind_ext. intro l. unfold marshalList.
    apply bind_ext. intros _. f_equal.
    apply forM_ext_In. intros x _. apply marshalSingular_options.
  - apply bind_ext. intro es. unfold marshalMap.
    apply bind_ext. intros _. f_equal.
    cbv zeta. apply bind_ext. intro kfd. apply bind_ext. intro entries.
    apply forM_ext_In. intros e _. unfold marshalMapEntry.
    apply bind_ext. intros _. unfold marshalMapValue.
    destruct (fd_MapValue fd); [apply marshalSingular_options|reflexivity].
  - apply marshalSingular_options.
Qed.

Lemma marshalMessage_body_options (m : Message) :
  marshalCustomType o m = marshalCustomType o' m ->
  marshalMessage_body o rec m = marshalMessage_body o' rec' m.
Proof.
  intro Hhook. unfold marshalMessage_body. rewrite Hhook.
  destruct (isCustomType _); [reflexivity|].
  apply bind_ext. intros _. f_equal. unfold marshalFields.
  destruct (_ && _); [reflexivity|].
  replace (marshalKnownFields o rec m) with (marshalKnownFields o' rec' m).
  - apply bind_ext. intros _. unfold marshalExtensions. cbv zeta.
    apply forM_ext_In. intros e _. unfold marshalExtension.
    apply bind_ext. intros _. apply marshalValue_options.
  - unfold marshalKnownFields. apply forM_ext_In. intros fd _.
    unfold marshalField, field_value, field_name. rewrite Hnames, Hemit.
    destruct (if negb (Has m fd) then _ else _); [|reflexivity].
    apply bind_ext. intro name. apply bind_ext. intros _.
    symmetry. apply marshalValue_options.
Qed.

End Options.

Lemma marshalMessage_options (fuel : nat) (o o' : MarshalOptions) (m : Message) :
  UseProtoNames o = UseProtoNames o' ->
  UseEnumNumbers o = UseEnumNumbers o' ->
  EmitUnpopulated o = EmitUnpopulated o' ->
  (forall m, marshalCustomType o m = marshalCustomType o' m) ->
  marshalMessage fuel o m = marshalMessage fuel o' m.
Proof.
  intros Hnames Henums Hemit Hhook. revert m.
  induction fuel as [|fuel IH]; intro m; simpl; [reflexivity|].
  apply marshalMessage_body_options; auto.
Qed.

(** X10: of the options, marshaling a message reads UseProtoNames,
    UseEnumNumbers and EmitUnpopulated only: two sets of options that agree
    on these three give the same tokens and, under the same indent, Marshal
    returns the same bytes for both, so that AllowPartial decides on the
    returned error alone.  The custom renderings are taken to give the same
    for the two sets of options. *)
Theorem tokens_depend_on_three_options
  (fuel : nat) (o o' : MarshalOptions) (m : Message) :
  UseProtoNames o = UseProtoNames o' ->
  UseEnumNumbers o = UseEnumNumbers o' ->
  EmitUnpopulated o = EmitUnpopulated o' ->
  ((forall m', marshalCustomType o m' = marshalCustomType o' m') ->
   marshalMessage fuel o m = marshalMessage fuel o' m) /\
  (Indent o = Indent o' ->
   (forall m', marshalCustomType (default_Resolver o) m'
               = marshalCustomType (default_Resolver o') m') ->
   option_map returned_bytes (MarshalOptions_Marshal fuel o m)
   = option_map returned_bytes (MarshalOptions_Marshal fuel o' m)).
Proof.
  intros Hnames Henums Hemit. split.
  - intro Hhook. apply marshalMessage_options; auto.
  - intros Hindent Hhook. unfold MarshalOptions_Marshal. rewrite Hindent.
    destruct (NewEncoder (Indent o')) as [encoder|err]; [|reflexivity].
    rewrite (marshalMessage_options fuel (default_Resolver o)
               (default_Resolver o') m);
      try (unfold default_Resolver;
           destruct (Resolver_ o), (Resolver_ o'); assumption);
      [|assumption].
    destruct (marshalMessage fuel (default_Resolver o') m)
      as [[ts [[]|err|msg]]|]; try reflexivity.
    destruct (AllowPartial (default_Resolver o)),
             (AllowPartial (default_Resolver o')); reflexivity.
Qed.

End Properties.

(** * The concrete build *)

(** ** Insertion sort meets the contract of sort.Slice *)

Lemma strict_weak_order_on_incl {A} (less : A -> A -> bool) (l l' : list A) :
  incl l' l -> strict_weak_order_on l less -> strict_weak_order_on l' less.
Proof.
  intros Hincl [Hirr [Htrans Hneg]]. unfold strict_weak_order_on.
  repeat split; intros.
  - apply Hirr; auto.
  - eapply Htrans with (b := b); auto.
  - eapply Hneg with (b := b); auto.
Qed.

Lemma insert_Permutation {A} (less : A -> A -> bool) (x : A) (l : list A) :
  Permutation (Demo.insert less x l) (x :: l).
Proof.
  induction l as [|y l IH]; simpl; [apply Permutation_refl|].
  destruct (less y x); [|apply Permutation_refl].
  eapply Permutation_trans; [apply perm_skip; exact IH|apply perm_swap].
Qed.

Lemma isort_Permutation (A : Type) (less : A -> A -> bool) (l : list A) :
  Permutation (Demo.isort A less l) l.
Proof.
  induction l as [|x l IH]; simpl; [constructor|].
  eapply Permutation_trans; [apply insert_Permutation|].
  apply perm_skip. exact IH.
Qed.

Lemma insert_sorted {A} (less : A -> A -> bool) (x : A) (l : list A) :
  strict_weak_order_on (x :: l) less ->
  StronglySorted (fun a b => less b a = false) l ->
  StronglySorted (fun a b => less b a = false) (Demo.insert less x l).
Proof.
  intros Hswo Hsorted. induction Hsorted as [|y l Hl IH Hy]; simpl.
  - repeat constructor.
  - destruct Hswo as [Hirr [Htrans Hneg]].
    destruct (less y x) eqn:Hyx.
    + constructor.
      * apply IH. apply strict_weak_order_on_incl with (l := x :: y :: l).
        -- intros z [->|Hz]; simpl; auto.
        -- repeat split; assumption.
      * eapply Permutation_Forall.
        -- apply Permutation_sym. apply insert_Permutation.
        -- constructor; [|assumption].
           destruct (less x y) eqn:Hxy; [|reflexivity].
           rewrite <- (Hirr x); [|simpl; auto].
           symmetry. apply Htrans with (b := y); simpl; auto.
    + constructor.
      * constructor; assumption.
      * constructor; [assumption|].
        rewrite Forall_forall in *. intros z Hz.
        apply Hneg with (b := y); simpl; auto.
Qed.

Lemma isort_contract : sort_contract Demo.isort.
Proof.
  intros A less l. split; [apply isort_Permutation|].
  induction l as [|x l IH]; simpl; intro Hswo; [constructor|].
  apply insert_sorted.
  - apply strict_weak_order_on_incl with (l := x :: l); [|assumption].
    intros z [->|Hz]; [left; reflexivity|right].
    eapply Permutation_in; [apply isort_Permutation|exact Hz].
  - apply IH. apply strict_weak_order_on_incl with (l := x :: l);
      [|assumption].
    intros z Hz. right. assumption.
Qed.

(** ** The theorems at concrete messages *)

Lemma Marshal_incomplete_keeps_bytes_witness :
  exists err,
    IsInitialized Demo.incomplete = Some err /\
    @MarshalOptions_Marshal Demo.collaborators 2 Demo.options Demo.incomplete
    = Some
        (Returned
           (Some
              (@Bytes Demo.collaborators
                 (Encoder_append (mkEncoder "" [])
                    [TStartObject; TName "name"; TString "Ada"; TEndObject])))
           (Some err)).
Proof.
  apply (@Marshal_incomplete_keeps_bytes Demo.collaborators
           2 Demo.options Demo.incomplete).
  - reflexivity.
  - apply missing_here with (fd := Demo.required_id).
    + left. reflexivity.
    + reflexivity.
    + reflexivity.
  - reflexivity.
  - reflexivity.
Defined.

(** C1, as stated, fails: with AllowPartial false and a required field
    unset, a message whose body cannot be marshaled (here it holds a message
    set) makes Marshal return a nil byte slice with the error. *)
Lemma Marshal_incomplete_without_bytes :
  AllowPartial Demo.options = false /\
  missing_required Demo.incomplete_with_set /\
  @MarshalOptions_Marshal Demo.collaborators 3 Demo.options Demo.incomplete_with_set
  = Some (Returned None (Some no_MessageSets)).
Proof.
  split; [reflexivity|]. split; [|reflexivity].
  apply missing_here with (fd := Demo.required_id).
  - left. reflexivity.
  - reflexivity.
  - reflexivity.
Qed.

Lemma Marshal_body_error_returns_nil_witness :
  @MarshalOptions_Marshal Demo.collaborators 3 Demo.options Demo.incomplete_with_set
  = Some (Returned None (Some no_MessageSets)).
Proof.
  apply (@Marshal_body_error_returns_nil Demo.collaborators
           3 Demo.options Demo.incomplete_with_set (mkEncoder "" [])
           [TStartObject; TName "set"; TStartObject; TEndObject; TEndObject]).
  - reflexivity.
  - reflexivity.
Defined.

Lemma MessageSet_rejected_unless_legacy_witness :
  @marshalFields Demo.collaborators Demo.options (fun _ => None)
    Demo.a_message_set
  = fail no_MessageSets /\
  @MarshalOptions_Marshal Demo.collaborators 1 Demo.options Demo.a_message_set
  = Some (Returned None (Some no_MessageSets)).
Proof.
  destruct (@MessageSet_rejected_unless_legacy Demo.collaborators
              Demo.options (fun _ => None) Demo.a_message_set eq_refl)
    as [Hoff _].
  destruct (Hoff eq_refl) as [Hfields Hrest].
  split; [exact Hfields|].
  destruct (Hrest eq_refl 0%nat) as [_ HMarshal].
  exact (HMarshal eq_refl).
Defined.

Lemma int64_written_as_string_witness :
  @marshalSingular Demo.collaborators Demo.options (fun _ => None)
    (VInt64 (-9007199254740993)) (Demo.scalar "id" Int64Kind Optional Proto3)
  = Some ([TString "-9007199254740993"], Ok tt).
Proof.
  apply (@int64_written_as_string Demo.collaborators Demo.options
           (fun _ => None) (VInt64 (-9007199254740993))
           (Demo.scalar "id" Int64Kind Optional Proto3) (-9007199254740993)).
  - reflexivity.
  - left. reflexivity.
  - reflexivity.
Defined.

Lemma enum_rendering_witness :
  @marshalSingular Demo.collaborators Demo.options (fun _ => None)
    (VEnum 7) Demo.color_field
  = Some ([TInt 7], Ok tt) /\
  @marshalSingular Demo.collaborators Demo.options (fun _ => None)
    (VEnum 1) Demo.color_field
  = Some ([TString "GREEN"], Ok tt).
Proof.
  assert (Hname : ed_FullName Demo.color <> "google.protobuf.NullValue"%string)
    by discriminate.
  split.
  - destruct (@enum_rendering Demo.collaborators Demo.options (fun _ => None)
                (VEnum 7) Demo.color_field Demo.color eq_refl eq_refl)
      as [_ Hother].
    destruct (Hother Hname 7 eq_refl) as [Hnumber _].
    apply Hnumber. right. reflexivity.
  - destruct (@enum_rendering Demo.collaborators Demo.options (fun _ => None)
                (VEnum 1) Demo.color_field Demo.color eq_refl eq_refl)
      as [_ Hother].
    destruct (Hother Hname 1 eq_refl) as [_ Hsymbol].
    apply (Hsymbol (mkEnumValue "GREEN" 1)); reflexivity.
Defined.




Lemma extensions_after_fields_sorted_witness :
  exists entries,
    Permutation entries
      (@collect_extensions Demo.collaborators (Range Demo.with_extensions)) /\
    StronglySorted
      (fun a b => String.ltb (entry_key b) (entry_key a) = false) entries.
Proof.
  destruct (@extensions_after_fields_sorted Demo.collaborators Demo.options
              (fun _ => None) Demo.with_extensions isort_contract)
    as [entries [Hperm [_ [Hsorted _]]]].
  exists entries. split; assumption.
Defined.

(** C5, as stated, fails: the extensions pkg.ext and pkg.ext2 are written in
    the order of these names, which is not the lexicographic order of the
    bracketed names [pkg.ext] and [pkg.ext2]. *)
Lemma extensions_not_sorted_by_bracketed_name :
  @marshalMessage Demo.collaborators 1 Demo.options Demo.with_extensions
  = Some
      ([TStartObject; TName "[pkg.ext]"; TInt 1; TName "[pkg.ext2]"; TInt 2;
        TEndObject],
       Ok tt) /\
  String.ltb "[pkg.ext2]" "[pkg.ext]" = true.
Proof. split; reflexivity. Qed.


Lemma counts_same_content :
  @value_equiv Demo.collaborators (VMap Demo.counts) (VMap Demo.counts_otherwise).
Proof.
  apply equiv_map with (es1' := Demo.counts_otherwise).
  - repeat constructor; simpl; intuition discriminate.
  - apply perm_swap.
  - repeat constructor; apply equiv_scalar; reflexivity.
Qed.

Lemma stored_same_content :
  @message_equiv Demo.collaborators Demo.stored_one_way Demo.stored_another_way.
Proof.
  unfold Demo.stored_one_way, Demo.stored_another_way, Demo.message.
  apply equiv_fields
    with (range1' := [(Demo.map_field Int32Kind, VMap Demo.counts);
                      (Demo.extension "ext2" "pkg.ext2", VInt32 2);
                      (Demo.extension "ext" "pkg.ext", VInt32 1)]).
  - intros fd [<-|[]]. reflexivity.
  - intros fd [<-|[]]. exact counts_same_content.
  - repeat constructor; simpl; intuition discriminate.
  - apply perm_swap.
  - constructor; [split; [reflexivity|exact counts_same_content]|].
    repeat constructor; apply equiv_scalar; reflexivity.
Qed.

Lemma encoding_independent_of_storage_order_witness :
  @marshalMessage Demo.collaborators 2 Demo.options Demo.stored_one_way
  = @marshalMessage Demo.collaborators 2 Demo.options Demo.stored_another_way /\
  option_map returned_bytes
    (@MarshalOptions_Marshal Demo.collaborators 2 Demo.options
       Demo.stored_one_way)
  = option_map returned_bytes
      (@MarshalOptions_Marshal Demo.collaborators 2 Demo.options
         Demo.stored_another_way) /\
  ((depth Demo.stored_one_way < 2)%nat ->
   @marshalMessage Demo.collaborators 2 Demo.options Demo.stored_one_way
   <> None).
Proof.
  apply (@encoding_independent_of_storage_order Demo.collaborators
           2 Demo.options Demo.stored_one_way Demo.stored_another_way).
  - exact isort_contract.
  - intros o m1 m2 _. reflexivity.
  - intros v1 v2 _. reflexivity.
  - exact stored_same_content.
Defined.

Lemma brackets_always_closed_witness :
  balanced [TStartObject; TName "set"; TStartObject; TEndObject; TEndObject].
Proof.
  apply (@brackets_always_closed Demo.collaborators 2 Demo.options
           Demo.incomplete_with_set
           [TStartObject; TName "set"; TStartObject; TEndObject; TEndObject]
           (Err no_MessageSets)).
  - intros o m _. reflexivity.
  - reflexivity.
Defined.

Lemma Marshal_error_sources_witness :
  (@None (list Byte.byte) = None /\
   (@NewEncoder (Indent Demo.options) = inr no_MessageSets \/
    no_MessageSets = no_MessageSets \/
    (exists s, no_MessageSets = errors_InvalidUTF8 s /\
               @string_accepted Demo.collaborators s = false) \/
    False)) \/
  (@None (list Byte.byte) <> None /\
   AllowPartial Demo.options = false /\
   IsInitialized Demo.incomplete_with_set = Some no_MessageSets).
Proof.
  apply (@Marshal_error_sources Demo.collaborators (fun _ => False)
           2 Demo.options Demo.incomplete_with_set None no_MessageSets).
  - intros o m err H. discriminate.
  - reflexivity.
Defined.


Lemma well_typed_message_never_panics_witness :
  never_panics
    (@marshalMessage Demo.collaborators 2 Demo.options Demo.stored_one_way) /\
  (forall msg,
     @MarshalOptions_Marshal Demo.collaborators 2 Demo.options
       Demo.stored_one_way
     <> Some (Panicked msg)) /\
  ((depth Demo.stored_one_way < 2)%nat ->
   @marshalMessage Demo.collaborators 2 Demo.options Demo.stored_one_way
   <> None).
Proof.
  apply (@well_typed_message_never_panics Demo.collaborators
           2 Demo.options Demo.stored_one_way).
  - exact isort_contract.
  - intros o m msg H. discriminate.
  - reflexivity.
Defined.

Lemma list_stops_at_first_error_witness :
  @marshalList Demo.collaborators Demo.options (fun _ => None)
    ([VString "a"] ++ VString Demo.not_ascii :: [VString "c"])
    Demo.tags_field
  = Some (TStartArray
            :: List.concat [[TString "a"]]
            ++ [TRejected Demo.not_ascii] ++ [TEndArray],
          Err (errors_InvalidUTF8 Demo.not_ascii)).
Proof.
  apply (@list_stops_at_first_error Demo.collaborators Demo.options
           (fun _ => None) Demo.tags_field
           [VString "a"] (VString Demo.not_ascii) [VString "c"]
           [[TString "a"]] [TRejected Demo.not_ascii]
           (errors_InvalidUTF8 Demo.not_ascii)).
  - repeat constructor.
  - reflexivity.
Defined.

Lemma message_stops_at_first_error_witness :
  @marshalMessage Demo.collaborators 2 Demo.options Demo.failing_second
  = Some (TStartObject
            :: [TName "name"; TString "Ada"]
            ++ [TName "set"; TStartObject; TEndObject] ++ [TEndObject],
          Err no_MessageSets).
Proof.
  apply (@message_stops_at_first_error Demo.collaborators 1 Demo.options
           Demo.failing_second
           [Demo.name_field] Demo.set_field [Demo.flag_field]
           [TName "name"; TString "Ada"]
           [TName "set"; TStartObject; TEndObject] no_MessageSets);
    reflexivity.
Defined.

Lemma int64_field_never_fails_witness :
  @marshalSingular Demo.collaborators Demo.options (fun _ => None)
    (VString Demo.not_ascii) Demo.total_field
  = Some ([if negb (IsValid (VString Demo.not_ascii)) then TNull
           else if @string_accepted Demo.collaborators
                     (@Value_String Demo.collaborators
                        (VString Demo.not_ascii))
                then TString (@Value_String Demo.collaborators
                                (VString Demo.not_ascii))
                else TRejected (@Value_String Demo.collaborators
                                  (VString Demo.not_ascii))],
          Ok tt).
Proof.
  apply (@int64_field_never_fails Demo.collaborators Demo.options
           (fun _ => None) (VString Demo.not_ascii) Demo.total_field).
  reflexivity.
Defined.



Lemma tokens_depend_on_three_options_witness :
  ((forall m',
      @marshalCustomType Demo.collaborators Demo.options m'
      = @marshalCustomType Demo.collaborators Demo.partial m') ->
   @marshalMessage Demo.collaborators 2 Demo.options Demo.incomplete
   = @marshalMessage Demo.collaborators 2 Demo.partial Demo.incomplete) /\
  (Indent Demo.options = Indent Demo.partial ->
   (forall m',
      @marshalCustomType Demo.collaborators (default_Resolver Demo.options) m'
      = @marshalCustomType Demo.collaborators
          (default_Resolver Demo.partial) m') ->
   option_map returned_bytes
     (@MarshalOptions_Marshal Demo.collaborators 2 Demo.options
        Demo.incomplete)
   = option_map returned_bytes
       (@MarshalOptions_Marshal Demo.collaborators 2 Demo.partial
          Demo.incomplete)).
Proof.
  apply (@tokens_depend_on_three_options Demo.collaborators
           2 Demo.options Demo.partial Demo.incomplete); reflexivity.
Defined.
